(** * Incremental archiving tool: the sync decision engine of backupGDrive.pyw

    A shallow embedding of the core of [backupGDrive.pyw] (fingerprint
    registry, skip-decision evaluator [process_file], the two walkers
    [sync_folder_recursive] and [sync_documents_special], and the task loop
    of [main]) together with the properties stated about it.

    Modelling choices, all visible in the definitions below:
    - the script reads the configured sources (drive C:) and writes the
      archive (drive G:); the world therefore holds two directory trees, a
      source volume that the program never writes and a destination volume;
    - a path is the list of its components below the volume root;
    - [st_mtime] is a Python float, that is an IEEE 754 binary64 number; it
      is modelled by the binary64 floats of Rocq, so that the sum and the
      comparison of line 100 are the rounded operations that Python performs,
      and [int] is the exact truncation of the float's value;
    - every call that reaches the operating system through [stat], [exists],
      [is_dir], [is_file], [iterdir], [mkdir] or [copy2] consumes one slot of
      a fault schedule held in the world: a slot [Some msg] makes that call
      raise [OSError msg] (an error that pathlib does not swallow, such as
      [PermissionError]).  The theorems quantify over all schedules.
      [os.walk] is called without [onerror] and so never raises; it is
      modelled on a tree all of whose directories can be listed.  Only files
      and directories are modelled (no symbolic links);
    - the world records the sequence of such calls and of printed lines, so
      that "no copy", "no existence check" and "reported" can be stated;
    - the source functions return [None] on every path; [process_file] here
      returns the name of the return path it took (a [CopyOutcome]). *)

From Stdlib Require Import ZArith List String Bool Lia.
From Stdlib Require Import PrimFloat SpecFloat FloatOps.
From stdpp Require Import base gmap strings list.
Import ListNotations.

Local Open Scope string_scope.
Local Open Scope Z_scope.
Local Open Scope list_scope.

(** ** Paths (pathlib.Path, as far as the script uses it) *)

Definition path := list string.

(** [Path.name]: the last component, [''] for a root. *)
Definition path_name (p : path) : string := List.last p EmptyString.

(** [Path.parent]: drops the last component; the parent of a root is itself. *)
Definition path_parent (p : path) : path := removelast p.

(** [p / name]. *)
Definition path_join (p : path) (name : string) : path := p ++ [name].

(** [p / q] for a relative [q]. *)
Definition path_concat (p q : path) : path := p ++ q.

(** [Path.relative_to]: [None] stands for the [ValueError] pathlib raises when
    [base] is not a prefix of [p]. *)
Fixpoint relative_to (p base : path) {struct base} : option path :=
  match base with
  | [] => Some p
  | b :: base' =>
      match p with
      | x :: p' => if String.eqb b x then relative_to p' base' else None
      | [] => None
      end
  end.

(** ** File metadata and directory trees *)

Record stat_result := mk_stat {
  st_size : Z;
  st_mtime : float;
  st_file_attributes : Z
}.

Definition FILE_ATTRIBUTE_HIDDEN : Z := 2.

#[warnings="-register-all"]
Inductive node :=
| File (st : stat_result)
| Dir (st : stat_result) (entries : list (string * node)).

Definition node_stat (n : node) : stat_result :=
  match n with File st => st | Dir st _ => st end.

Definition node_is_dir (n : node) : bool :=
  match n with Dir _ _ => true | File _ => false end.

Definition node_is_file (n : node) : bool :=
  match n with File _ => true | Dir _ _ => false end.

Fixpoint lookup_entry (name : string) (es : list (string * node)) : option node :=
  match es with
  | [] => None
  | (k, n) :: es' => if String.eqb k name then Some n else lookup_entry name es'
  end.

Fixpoint set_entry (name : string) (n : node) (es : list (string * node))
  : list (string * node) :=
  match es with
  | [] => []
  | (k, c) :: es' =>
      if String.eqb k name then (k, n) :: es' else (k, c) :: set_entry name n es'
  end.

Fixpoint find_node (n : node) (p : path) : option node :=
  match p with
  | [] => Some n
  | x :: p' =>
      match n with
      | File _ => None
      | Dir _ es =>
          match lookup_entry x es with
          | Some c => find_node c p'
          | None => None
          end
      end
  end.

(** Names of the sub-directories and of the other entries of a listing, in
    listing order: the [dirs] and [files] of one [os.walk] triple. *)
Definition dir_names (es : list (string * node)) : list string :=
  map fst (List.filter (fun e => node_is_dir (snd e)) es).

Definition file_names (es : list (string * node)) : list string :=
  map fst (List.filter (fun e => node_is_file (snd e)) es).

(** A directory names each of its entries once, at every level. *)
Fixpoint wf_node (n : node) : Prop :=
  match n with
  | File _ => True
  | Dir _ es =>
      List.NoDup (map fst es) /\
      (fix all (l : list (string * node)) : Prop :=
         match l with
         | [] => True
         | e :: l' => wf_node (snd e) /\ all l'
         end) es
  end.

(** ** Exceptions, events and the world *)

Inductive exn :=
| OSError (msg : string)
| FileNotFoundError (p : path)
| FileExistsError (p : path)
| NotADirectoryError (p : path)
| IsADirectoryError (p : path)
| ValueError (p : path)                 (* [relative_to]: [p] is not below the base *)
| NotANumberError                      (* the [ValueError] of [int] on a NaN *)
| OverflowError.                       (* [int] on an infinity *)

Inductive CopyOutcome := Copied | SkippedDuplicate | SkippedUnchanged | Failed.

Inductive volume := Src | Dst.

(** The lines the script prints. *)
Inductive line :=
| CopyLine (name : string)              (* line 108: the copy notice, with src_file.name *)
| ErrorLine (src : path) (e : exn)      (* line 112: the error notice, with src_file and e *)
| ScanLine (root : path)                (* line 134: the top-level scan notice, with src_root *)
| TaskLine (subfolder : string).        (* line 160: the task notice, with subfolder *)

Inductive event :=
| EvStat (v : volume) (p : path)
| EvExists (v : volume) (p : path)
| EvIsDir (p : path)
| EvIsFile (p : path)
| EvIterdir (p : path)
| EvMkdir (p : path)
| EvCopy (src dst : path)
| EvPrint (l : line).

(** (name, size, int(mtime)) *)
Definition fingerprint : Type := string * Z * Z.

Record world := mk_world {
  src_vol : node;
  dst_vol : node;
  SEEN_FILES_FINGERPRINTS : gset fingerprint;
  faults : list (option string);
  trace : list event
}.

Definition vol (v : volume) (w : world) : node :=
  match v with Src => src_vol w | Dst => dst_vol w end.

Definition set_dst (t : node) (w : world) : world :=
  mk_world (src_vol w) t (SEEN_FILES_FINGERPRINTS w) (faults w) (trace w).

Definition set_seen (s : gset fingerprint) (w : world) : world :=
  mk_world (src_vol w) (dst_vol w) s (faults w) (trace w).

Definition record (ev : event) (w : world) : world :=
  mk_world (src_vol w) (dst_vol w) (SEEN_FILES_FINGERPRINTS w) (faults w)
           (trace w ++ [ev]).

Definition pop_fault (w : world) : world :=
  mk_world (src_vol w) (dst_vol w) (SEEN_FILES_FINGERPRINTS w) (List.tl (faults w))
           (trace w).

(** ** A state-and-exception monad for the script *)

Inductive result (A : Type) :=
| Ok (a : A)
| Raise (e : exn).
Arguments Ok {A} a.
Arguments Raise {A} e.

Definition M (A : Type) : Type := world -> result A * world.

Definition ret {A} (a : A) : M A := fun w => (Ok a, w).

Definition raise {A} (e : exn) : M A := fun w => (Raise e, w).

Definition bind {A B} (c : M A) (k : A -> M B) : M B :=
  fun w =>
    match c w with
    | (Ok a, w') => k a w'
    | (Raise e, w') => (Raise e, w')
    end.

(** [try: c except Exception as e: h e] *)
Definition try_except {A} (c : M A) (h : exn -> M A) : M A :=
  fun w =>
    match c w with
    | (Ok a, w') => (Ok a, w')
    | (Raise e, w') => h e w'
    end.

Definition read {A} (f : world -> A) : M A := fun w => (Ok (f w), w).

Definition modify (f : world -> world) : M unit := fun w => (Ok tt, f w).

Declare Scope io_scope.
Delimit Scope io_scope with io.
Notation "x <- c ;; k" := (bind c (fun x => k))
  (at level 100, c at next level, right associativity) : io_scope.
Notation "c ;; k" := (bind c (fun _ => k))
  (at level 100, right associativity) : io_scope.
Local Open Scope io_scope.

(** [for x in l: body x] *)
Fixpoint for_each {A} (l : list A) (body : A -> M unit) : M unit :=
  match l with
  | [] => ret tt
  | x :: l' => body x ;; for_each l' body
  end.

(** The world once the call [ev] into the operating system has been made. *)
Definition after (ev : event) (w : world) : world := pop_fault (record ev w).

(** One call into the operating system: it is recorded, it consumes the next
    slot of the fault schedule, and it raises when that slot holds a fault. *)
Definition syscall (ev : event) : M unit :=
  fun w =>
    match faults w with
    | Some msg :: _ => (Raise (OSError msg), after ev w)
    | _ => (Ok tt, after ev w)
    end.

(** [print]: [sys.stdout] is the [DualLogger], whose [write] swallows every
    exception of the terminal, so printing cannot raise. *)
Definition print (l : line) : M unit := modify (record (EvPrint l)).

(** ** Filesystem operations *)

(** [Path.stat] / [os.stat] *)
Definition path_stat (v : volume) (p : path) : M stat_result :=
  syscall (EvStat v p) ;;
  n <- read (fun w => find_node (vol v w) p) ;;
  match n with
  | Some n => ret (node_stat n)
  | None => raise (FileNotFoundError p)
  end.

(** [Path.exists] *)
Definition path_exists (v : volume) (p : path) : M bool :=
  syscall (EvExists v p) ;;
  n <- read (fun w => find_node (vol v w) p) ;;
  ret (match n with Some _ => true | None => false end).

(** [Path.is_dir], [Path.is_file]: a [stat] of the entry.  pathlib answers
    False when the entry is missing and lets any other error of the [stat]
    through. *)
Definition path_is_dir (p : path) : M bool :=
  syscall (EvIsDir p) ;;
  n <- read (fun w => find_node (src_vol w) p) ;;
  ret (match n with Some n => node_is_dir n | None => false end).

Definition path_is_file (p : path) : M bool :=
  syscall (EvIsFile p) ;;
  n <- read (fun w => find_node (src_vol w) p) ;;
  ret (match n with Some n => node_is_file n | None => false end).

Definition fresh_dir_stat : stat_result := mk_stat 0 0%float 0.

(** The tree after [mkdir(parents=True, exist_ok=True)] of [p]; an exception
    when a component of [p] is a file. *)
Fixpoint mkdirs (n : node) (p : path) (full : path) : result node :=
  match p with
  | [] =>
      match n with
      | Dir _ _ => Ok n
      | File _ => Raise (FileExistsError full)
      end
  | x :: p' =>
      match n with
      | File _ => Raise (NotADirectoryError full)
      | Dir st es =>
          match lookup_entry x es with
          | Some c =>
              match mkdirs c p' full with
              | Ok c' => Ok (Dir st (set_entry x c' es))
              | Raise e => Raise e
              end
          | None =>
              match mkdirs (Dir fresh_dir_stat []) p' full with
              | Ok c' => Ok (Dir st (es ++ [(x, c')]))
              | Raise e => Raise e
              end
          end
      end
  end.

(** The tree after a file with metadata [st] is written at [p]: the parent
    must be a directory and [p] itself must not be one. *)
Fixpoint write_file (n : node) (p : path) (st : stat_result) (full : path)
  : result node :=
  match p with
  | [] =>
      match n with
      | File _ => Ok (File st)
      | Dir _ _ => Raise (IsADirectoryError full)
      end
  | x :: p' =>
      match n with
      | File _ => Raise (NotADirectoryError full)
      | Dir d es =>
          match lookup_entry x es with
          | Some c =>
              match write_file c p' st full with
              | Ok c' => Ok (Dir d (set_entry x c' es))
              | Raise e => Raise e
              end
          | None =>
              match p' with
              | [] => Ok (Dir d (es ++ [(x, File st)]))
              | _ :: _ => Raise (FileNotFoundError full)
              end
          end
      end
  end.

(** [Path.mkdir(parents=True, exist_ok=True)] on the destination volume. *)
Definition mkdir_parents (p : path) : M unit :=
  syscall (EvMkdir p) ;;
  t <- read (fun w => mkdirs (dst_vol w) p p) ;;
  match t with
  | Ok t' => modify (set_dst t')
  | Raise e => raise e
  end.

(** [shutil.copy2 src dst]: when [dst] is a directory the file goes to
    [dst / src.name]; size, modification time and attributes are preserved. *)
Definition copy2 (src dst : path) : M unit :=
  syscall (EvCopy src dst) ;;
  s <- read (fun w => find_node (src_vol w) src) ;;
  match s with
  | None => raise (FileNotFoundError src)
  | Some (Dir _ _) => raise (IsADirectoryError src)
  | Some (File st) =>
      d <- read (fun w => find_node (dst_vol w) dst) ;;
      let target :=
        match d with
        | Some (Dir _ _) => path_join dst (path_name src)
        | _ => dst
        end in
      t <- read (fun w => write_file (dst_vol w) target st target) ;;
      match t with
      | Ok t' => modify (set_dst t')
      | Raise e => raise e
      end
  end.

(** ** Core logic of the script *)

(** [int(x)] on a float: the value [m * 2^e] of a finite float truncated
    toward zero; Python raises [ValueError] on a NaN and [OverflowError] on
    an infinity. *)
Definition int_of (x : float) : result Z :=
  match Prim2SF x with
  | S754_zero _ => Ok 0
  | S754_finite negative m e =>
      let magnitude := Z.shiftl (Z.pos m) e in
      Ok (if negative then - magnitude else magnitude)
  | S754_infinity _ => Raise OverflowError
  | S754_nan => Raise NotANumberError
  end.

(** A computation that only returns or raises. *)
Definition lift {A} (r : result A) : M A := fun w => (r, w).

Definition is_hidden (p : path) : M bool :=
  try_except
    (st <- path_stat Src p ;;
     ret (negb (Z.land (st_file_attributes st) FILE_ATTRIBUTE_HIDDEN =? 0)))
    (fun _ => ret false).

Definition get_file_fingerprint (p : path) : M (option fingerprint) :=
  try_except
    (st <- path_stat Src p ;;
     seconds <- lift (int_of (st_mtime st)) ;;
     ret (Some (path_name p, st_size st, seconds)))
    (fun _ => ret None).

(** The fingerprint that the metadata [st] gives to the file at [p], if its
    modification time is a finite number. *)
Definition fingerprint_of (p : path) (st : stat_result) : option fingerprint :=
  match int_of (st_mtime st) with
  | Ok seconds => Some (path_name p, st_size st, seconds)
  | Raise _ => None
  end.

(** Step 3 of [process_file] (lines 107-109). *)
Definition do_copy (src_file dst_file : path) : M CopyOutcome :=
  mkdir_parents (path_parent dst_file) ;;
  print (CopyLine (path_name src_file)) ;;
  copy2 src_file dst_file ;;
  ret Copied.

(** The body of the [try] of [process_file] (lines 89-109). *)
Definition compare_and_copy (src_file dst_file : path) : M CopyOutcome :=
  ex <- path_exists Dst dst_file ;;
  if ex then
    src_stat <- path_stat Src src_file ;;
    dst_stat <- path_stat Dst dst_file ;;
    let size_match := st_size src_stat =? st_size dst_stat in
    let time_match := (st_mtime src_stat <=? st_mtime dst_stat + 5)%float in
    if size_match && time_match then ret SkippedUnchanged
    else do_copy src_file dst_file
  else do_copy src_file dst_file.

(** The [try ... except Exception as e: print(...)] of [process_file]. *)
Definition guarded_copy (src_file dst_file : path) : M CopyOutcome :=
  try_except (compare_and_copy src_file dst_file)
             (fun e => print (ErrorLine src_file e) ;; ret Failed).

Definition add_seen (fp : fingerprint) (w : world) : world :=
  set_seen ({[fp]} ∪ SEEN_FILES_FINGERPRINTS w) w.

Definition process_file (src_file dst_file : path) : M CopyOutcome :=
  fp <- get_file_fingerprint src_file ;;
  match fp with
  | Some fp =>
      seen <- read SEEN_FILES_FINGERPRINTS ;;
      if bool_decide (fp ∈ seen) then ret SkippedDuplicate
      else
        modify (add_seen fp) ;;
        guarded_copy src_file dst_file
  | None => guarded_copy src_file dst_file
  end.

(** ** The walkers *)

(** The triples [(root, dirs, files)] that [os.walk] yields, top-down, for the
    directory [n] found at [root]: the directory itself first, then its
    sub-directories in listing order.  [os.walk] ignores what it cannot list,
    so a [root] that is a file yields nothing.  [os.walk] yields lazily; the
    source volume is not written during a run, so the triples are the same
    when they are computed at once. *)
Fixpoint walk (root : path) (n : node) : list (path * list string * list string) :=
  match n with
  | File _ => []
  | Dir _ es =>
      (root, dir_names es, file_names es)
        :: flat_map (fun e => walk (path_join root (fst e)) (snd e)) es
  end.

Definition os_walk (top : path) : M (list (path * list string * list string)) :=
  read (fun w => match find_node (src_vol w) top with
                 | Some n => walk top n
                 | None => []
                 end).

(** [Path.iterdir]: the entries of a directory, as paths. *)
Definition iterdir (p : path) : M (list path) :=
  syscall (EvIterdir p) ;;
  n <- read (fun w => find_node (src_vol w) p) ;;
  match n with
  | Some (Dir _ es) => ret (map (fun e => path_join p (fst e)) es)
  | Some (File _) => raise (NotADirectoryError p)
  | None => raise (FileNotFoundError p)
  end.

(** Lines 121-126: the body of the loop over [os.walk]. *)
Definition mirror_files (src_folder dst_folder : path)
  (t : path * list string * list string) : M unit :=
  let '(root_path, _, files) := t in
  match relative_to root_path src_folder with
  | None => raise (ValueError root_path)
  | Some rel_path =>
      let current_dst_dir := path_concat dst_folder rel_path in
      for_each files (fun file =>
        process_file (path_join root_path file)
                     (path_join current_dst_dir file) ;;
        ret tt)
  end.

Definition sync_folder_recursive (src_folder dst_folder : path) : M unit :=
  ex <- path_exists Src src_folder ;;
  if negb ex then ret tt
  else
    triples <- os_walk src_folder ;;
    for_each triples (mirror_files src_folder dst_folder).

(** Lines 142-145: what the top-level loop does with an entry that passed
    the hidden filter. *)
Definition dispatch_entry (dst_root item : path) : M unit :=
  d <- path_is_dir item ;;
  if d then sync_folder_recursive item (path_join dst_root (path_name item))
  else
    f <- path_is_file item ;;
    if f then
      process_file item (path_join dst_root (path_name item)) ;;
      ret tt
    else ret tt.

(** Lines 137-145: the body of the top-level loop. *)
Definition visit_top_level (dst_root item : path) : M unit :=
  hidden <- is_hidden item ;;
  if hidden then ret tt
  else dispatch_entry dst_root item.

Definition sync_documents_special (src_root dst_root : path) : M unit :=
  ex <- path_exists Src src_root ;;
  if negb ex then ret tt
  else
    print (ScanLine src_root) ;;
    items <- iterdir src_root ;;
    for_each items (visit_top_level dst_root).

(** ** The task loop of [main] *)

(** A task with its source already resolved to a path:
    (source root, destination subfolder, check_hidden). *)
Definition task : Type := path * string * bool.

Definition run_tasks (TASKS : list task) (DEST_ROOT : path) : M unit :=
  for_each TASKS (fun t =>
    let '(src, subfolder, check_hidden) := t in
    let full_dest := path_join DEST_ROOT subfolder in
    print (TaskLine subfolder) ;;
    if check_hidden then sync_documents_special src full_dest
    else sync_folder_recursive src full_dest).

(** ** Vocabulary of the specification *)

(** The paths, relative to a directory [n], of the regular files anywhere
    below it: the files of [n] itself first, then those of each
    sub-directory, in listing order. *)
Fixpoint files_under (n : node) : list path :=
  match n with
  | File _ => []
  | Dir _ es =>
      map (fun f => [f]) (file_names es)
        ++ flat_map (fun e => map (cons (fst e)) (files_under (snd e))) es
  end.

(** A candidate: (source path, destination path). *)
Definition candidate : Type := path * path.

(** The candidates that mirror the tree [n] found at [src_root] under
    [dst_root]: same relative path on both sides. *)
Definition mirror (src_root dst_root : path) (n : node) : list candidate :=
  map (fun rel => (path_concat src_root rel, path_concat dst_root rel))
      (files_under n).

(** Passing candidates to the evaluator, one after the other. *)
Definition evaluate_all (cs : list candidate) : M unit :=
  for_each cs (fun c => process_file (fst c) (snd c) ;; ret tt).

(** The outcomes the evaluator gives to the candidates [cs], in order. *)
Fixpoint outcomes (cs : list candidate) (w : world) : list (result CopyOutcome) :=
  match cs with
  | [] => []
  | c :: cs' =>
      let rw := process_file (fst c) (snd c) w in
      fst rw :: outcomes cs' (snd rw)
  end.

(** The world in which the evaluator leaves [w] once it has been called on
    the candidates [cs], one call after the other. *)
Fixpoint evaluated (cs : list candidate) (w : world) : world :=
  match cs with
  | [] => w
  | c :: cs' => evaluated cs' (snd (process_file (fst c) (snd c) w))
  end.

(** The run of the body of the top-level loop (lines 137-145) on the entries
    [items], one entry after the other; it ends with the first entry on
    which the body raises. *)
Fixpoint visited (dst_root : path) (items : list path) (w : world)
  : result unit * world :=
  match items with
  | [] => (Ok tt, w)
  | item :: items' =>
      match visit_top_level dst_root item w with
      | (Ok _, w1) => visited dst_root items' w1
      | (Raise e, w1) => (Raise e, w1)
      end
  end.

Definition skipped (r : result CopyOutcome) : Prop :=
  r = Ok SkippedDuplicate \/ r = Ok SkippedUnchanged.

(** Events that can change the destination volume. *)
Definition is_write (ev : event) : bool :=
  match ev with
  | EvMkdir _ | EvCopy _ _ => true
  | _ => false
  end.

Definition mkdir_free (evs : list event) : Prop :=
  forall p, ~ In (EvMkdir p) evs.

(** Event sequences in which a [mkdir] only ever opens the copy of a file:
    it creates the parent chain of that file's destination and is followed
    either by the copy of that file or, when the [mkdir] itself raised, by
    the error notice. *)
Inductive copy_shaped : list event -> Prop :=
| shaped_nil : copy_shaped []
| shaped_read ev evs :
    is_write ev = false -> copy_shaped evs -> copy_shaped (ev :: evs)
| shaped_copy s d evs :
    copy_shaped evs ->
    copy_shaped (EvMkdir (path_parent d) :: EvPrint (CopyLine (path_name s))
                   :: EvCopy s d :: evs)
| shaped_mkdir_failed s d e evs :
    copy_shaped evs ->
    copy_shaped (EvMkdir (path_parent d) :: EvPrint (ErrorLine s e) :: evs).

(** The events of the local comparison of [process_file] (lines 90-92). *)
Definition comparison (src_file dst_file : path) : list event :=
  [EvExists Dst dst_file; EvStat Src src_file; EvStat Dst dst_file].

(** What a run of the body of the [try] of [process_file] looks like: the
    source volume and the registry are untouched; after a non-empty prefix
    of the comparison the run either ends (unchanged, or an exception), or a
    [mkdir] raises, or the [mkdir] is followed by the copy notice and the
    copy. *)
Definition attempt_post (s d : path) (w : world) (r : result CopyOutcome)
  (w' : world) : Prop :=
  src_vol w' = src_vol w /\
  SEEN_FILES_FINGERPRINTS w' = SEEN_FILES_FINGERPRINTS w /\
  exists k pre,
    pre = firstn (S k) (comparison s d) /\
    ((trace w' = trace w ++ pre /\ dst_vol w' = dst_vol w /\
      (r = Ok SkippedUnchanged \/ exists e, r = Raise e)) \/
     (exists e, r = Raise e /\ dst_vol w' = dst_vol w /\
                trace w' = trace w ++ pre ++ [EvMkdir (path_parent d)]) \/
     ((r = Ok Copied \/ exists e, r = Raise e) /\
      trace w' = trace w ++ pre ++
                 [EvMkdir (path_parent d); EvPrint (CopyLine (path_name s)); EvCopy s d])).

(** How the world may change while the engine runs: the source volume is
    never written, the registry only grows, events are only appended, and
    the destination volume changes only through a copy opened by [mkdir]. *)
Record evolves (w w' : world) : Prop := mk_evolves {
  evolves_src : src_vol w' = src_vol w;
  evolves_seen : SEEN_FILES_FINGERPRINTS w ⊆ SEEN_FILES_FINGERPRINTS w';
  evolves_trace :
    exists evs, trace w' = trace w ++ evs /\ copy_shaped evs /\
                (mkdir_free evs -> dst_vol w' = dst_vol w)
}.

(** [later w w']: [w'] is reached from [w] by running the evaluator, the
    walkers and task loops any number of times, on any arguments. *)
Inductive later : world -> world -> Prop :=
| later_now w : later w w
| later_file s d w r w1 w' :
    process_file s d w = (r, w1) -> later w1 w' -> later w w'
| later_recursive s d w r w1 w' :
    sync_folder_recursive s d w = (r, w1) -> later w1 w' -> later w w'
| later_special s d w r w1 w' :
    sync_documents_special s d w = (r, w1) -> later w1 w' -> later w w'
| later_tasks ts root w r w1 w' :
    run_tasks ts root w = (r, w1) -> later w1 w' -> later w w'.

(** The slot of the fault schedule that the [k]-th coming call will consume
    (an exhausted schedule holds no more faults). *)
Definition fault_at (k : nat) (w : world) : option string :=
  nth k (faults w) None.

(** The attempt on [(s, d)] started in [w] reaches step 3 (the copy) in
    [w1]: the destination does not exist, or the comparison found a
    difference. *)
Definition reaches_copy (s d : path) (w w1 : world) : Prop :=
  path_exists Dst d w = (Ok false, w1) \/
  exists wa wb src_stat dst_stat,
    path_exists Dst d w = (Ok true, wa) /\
    path_stat Src s wa = (Ok src_stat, wb) /\
    path_stat Dst d wb = (Ok dst_stat, w1) /\
    (st_size src_stat =? st_size dst_stat)
      && (st_mtime src_stat <=? st_mtime dst_stat + 5)%float = false.

(** The exception [e] is raised, leaving the world [w'], at one of the
    stages of the attempt on [(s, d)] started in [w]: the existence check of
    the destination, the two [stat] calls of the comparison, the creation of
    the parent directories, the copy. *)
Inductive raises_during (s d : path) (w : world) (e : exn) (w' : world) : Prop :=
| raises_exists :
    path_exists Dst d w = (Raise e, w') -> raises_during s d w e w'
| raises_stat_src wa :
    path_exists Dst d w = (Ok true, wa) ->
    path_stat Src s wa = (Raise e, w') -> raises_during s d w e w'
| raises_stat_dst wa src_stat wb :
    path_exists Dst d w = (Ok true, wa) ->
    path_stat Src s wa = (Ok src_stat, wb) ->
    path_stat Dst d wb = (Raise e, w') -> raises_during s d w e w'
| raises_mkdir w1 :
    reaches_copy s d w w1 ->
    mkdir_parents (path_parent d) w1 = (Raise e, w') -> raises_during s d w e w'
| raises_copy w1 w2 :
    reaches_copy s d w w1 ->
    mkdir_parents (path_parent d) w1 = (Ok tt, w2) ->
    copy2 s d (record (EvPrint (CopyLine (path_name s))) w2) = (Raise e, w') ->
    raises_during s d w e w'.

(** A computation all of whose runs are related by [R]. *)
Definition respects {A} (R : world -> world -> Prop) (c : M A) : Prop :=
  forall w r w', c w = (r, w') -> R w w'.

(** A computation that never lets an exception escape. *)
Definition total {A} (c : M A) : Prop :=
  forall w, exists a w', c w = (Ok a, w').

(** ** A small source tree and archive, used to exercise the statements *)

Definition file (size : Z) (mtime : float) (attributes : Z) : node :=
  File (mk_stat size mtime attributes).

Definition folder (attributes : Z) (es : list (string * node)) : node :=
  Dir (mk_stat 0 0%float attributes) es.

(** [copy/a.txt] has the fingerprint of [docs/a.txt]; [.hid] and
    [docs/sub/b.txt] carry the hidden attribute. *)
Definition example_src : node :=
  folder 0
    [("docs", folder 0 [("a.txt", file 100 1000 0);
                        ("sub", folder 0 [("b.txt", file 5 3.5 2)])]);
     ("copy", folder 0 [("a.txt", file 100 1000 0)]);
     (".hid", folder 2 [("x.txt", file 3 3 0)]);
     ("top.txt", file 9 9 0);
     ("empty", folder 0 [])].

Definition example_dst : node :=
  folder 0 [("bk", folder 0 [("a.txt", file 100 998 0)])].

Definition example_world (schedule : list (option string)) : world :=
  mk_world example_src example_dst ∅ schedule [].

(** * Properties *)

(** ** Running the primitives *)

Lemma syscall_world ev w : snd (syscall ev w) = after ev w.
Proof. unfold syscall. destruct (faults w) as [|[msg|] fs]; reflexivity. Qed.

Lemma path_stat_run v p w :
  path_stat v p w =
  (match hd None (faults w) with
   | Some msg => Raise (OSError msg)
   | None =>
       match find_node (vol v w) p with
       | Some n => Ok (node_stat n)
       | None => Raise (FileNotFoundError p)
       end
   end, after (EvStat v p) w).
Proof.
  unfold path_stat, bind, read, syscall.
  destruct (faults w) as [|[msg|] fs]; cbn; try reflexivity;
    destruct v; cbn; destruct (find_node _ p); reflexivity.
Qed.

Lemma path_exists_run v p w :
  path_exists v p w =
  (match hd None (faults w) with
   | Some msg => Raise (OSError msg)
   | None => Ok (match find_node (vol v w) p with Some _ => true | None => false end)
   end, after (EvExists v p) w).
Proof.
  unfold path_exists, bind, read, syscall.
  destruct (faults w) as [|[msg|] fs]; cbn; try reflexivity;
    destruct v; reflexivity.
Qed.

Lemma path_is_dir_run p w :
  path_is_dir p w =
  (match hd None (faults w) with
   | Some msg => Raise (OSError msg)
   | None => Ok (match find_node (src_vol w) p with
                 | Some n => node_is_dir n | None => false end)
   end, after (EvIsDir p) w).
Proof.
  unfold path_is_dir, bind, read, syscall.
  destruct (faults w) as [|[msg|] fs]; reflexivity.
Qed.

Lemma path_is_file_run p w :
  path_is_file p w =
  (match hd None (faults w) with
   | Some msg => Raise (OSError msg)
   | None => Ok (match find_node (src_vol w) p with
                 | Some n => node_is_file n | None => false end)
   end, after (EvIsFile p) w).
Proof.
  unfold path_is_file, bind, read, syscall.
  destruct (faults w) as [|[msg|] fs]; reflexivity.
Qed.

Lemma iterdir_run p w :
  iterdir p w =
  (match hd None (faults w) with
   | Some msg => Raise (OSError msg)
   | None =>
       match find_node (src_vol w) p with
       | Some (Dir _ es) => Ok (map (fun e => path_join p (fst e)) es)
       | Some (File _) => Raise (NotADirectoryError p)
       | None => Raise (FileNotFoundError p)
       end
   end, after (EvIterdir p) w).
Proof.
  unfold iterdir, bind, read, syscall.
  destruct (faults w) as [|[msg|] fs]; cbn; try reflexivity;
    destruct (find_node (src_vol w) p) as [[st|st es]|]; reflexivity.
Qed.

Lemma get_file_fingerprint_run p w :
  get_file_fingerprint p w =
  (Ok (match hd None (faults w), find_node (src_vol w) p with
       | None, Some n => fingerprint_of p (node_stat n)
       | _, _ => None
       end), after (EvStat Src p) w).
Proof.
  unfold get_file_fingerprint, try_except, bind. rewrite path_stat_run.
  destruct (hd None (faults w)); cbn; [reflexivity|].
  destruct (find_node (src_vol w) p) as [n|]; [|reflexivity].
  unfold fingerprint_of, lift. destruct (int_of (st_mtime (node_stat n))); reflexivity.
Qed.

Lemma is_hidden_run p w :
  is_hidden p w =
  (Ok (match hd None (faults w), find_node (src_vol w) p with
       | None, Some n =>
           negb (Z.land (st_file_attributes (node_stat n)) FILE_ATTRIBUTE_HIDDEN =? 0)
       | _, _ => false
       end), after (EvStat Src p) w).
Proof.
  unfold is_hidden, try_except, bind. rewrite path_stat_run.
  destruct (hd None (faults w)); cbn; [reflexivity|].
  destruct (find_node (src_vol w) p); reflexivity.
Qed.

(** ** Relations preserved by the combinators *)

Section Respects.
Variable R : world -> world -> Prop.
Hypothesis R_refl : forall w, R w w.
Hypothesis R_trans : forall w1 w2 w3, R w1 w2 -> R w2 w3 -> R w1 w3.

Lemma respects_ret {A} (a : A) : respects R (ret a).
Proof. intros w r w' H. inversion H; subst. apply R_refl. Qed.

Lemma respects_raise {A} e : respects R (@raise A e).
Proof. intros w r w' H. inversion H; subst. apply R_refl. Qed.

Lemma respects_read {A} (f : world -> A) : respects R (read f).
Proof. intros w r w' H. inversion H; subst. apply R_refl. Qed.

Lemma respects_bind {A B} (c : M A) (k : A -> M B) :
  respects R c -> (forall a, respects R (k a)) -> respects R (bind c k).
Proof.
  intros Hc Hk w r w' H. unfold bind in H.
  destruct (c w) as [[a|e] w1] eqn:E.
  - eapply R_trans; [eapply Hc, E | eapply Hk, H].
  - inversion H; subst. eapply Hc, E.
Qed.

Lemma respects_try_except {A} (c : M A) (h : exn -> M A) :
  respects R c -> (forall e, respects R (h e)) -> respects R (try_except c h).
Proof.
  intros Hc Hh w r w' H. unfold try_except in H.
  destruct (c w) as [[a|e] w1] eqn:E.
  - inversion H; subst. eapply Hc, E.
  - eapply R_trans; [eapply Hc, E | eapply Hh, H].
Qed.

Lemma respects_for_each {A} (l : list A) (body : A -> M unit) :
  (forall x, respects R (body x)) -> respects R (for_each l body).
Proof.
  intros Hb. induction l as [|x l IH]; cbn [for_each].
  - apply respects_ret.
  - apply respects_bind; auto.
Qed.
End Respects.

Lemma mkdir_parents_run p w :
  mkdir_parents p w =
  match hd None (faults w) with
  | Some msg => (Raise (OSError msg), after (EvMkdir p) w)
  | None =>
      match mkdirs (dst_vol w) p p with
      | Ok t => (Ok tt, set_dst t (after (EvMkdir p) w))
      | Raise e => (Raise e, after (EvMkdir p) w)
      end
  end.
Proof.
  unfold mkdir_parents, bind, read, syscall.
  destruct (faults w) as [|[msg|] fs]; cbn; try reflexivity;
    destruct (mkdirs (dst_vol w) p p); reflexivity.
Qed.

(** Whatever [copy2] does, it leaves everything but the destination volume
    as one recorded call leaves it. *)
Lemma copy2_frame src dst w r w' :
  copy2 src dst w = (r, w') ->
  exists t, w' = set_dst t (after (EvCopy src dst) w).
Proof.
  unfold copy2, bind, read, syscall, raise, modify.
  assert (Hid : forall w0, w0 = set_dst (dst_vol w0) w0) by (now intros []).
  destruct (faults w) as [|[msg|] fs]; cbn;
    try (intros H; inversion H; subst; eexists; apply Hid);
    destruct (find_node (src_vol w) src) as [[st|st es]|]; cbn;
    try (intros H; inversion H; subst; eexists; apply Hid);
    destruct (write_file _ _ _ _); cbn; intros H; inversion H; subst;
    solve [eexists; apply Hid | eexists; reflexivity].
Qed.

Lemma do_copy_run s d w r w' :
  do_copy s d w = (r, w') ->
  src_vol w' = src_vol w /\
  SEEN_FILES_FINGERPRINTS w' = SEEN_FILES_FINGERPRINTS w /\
  ((exists e, r = Raise e /\ trace w' = trace w ++ [EvMkdir (path_parent d)] /\
              dst_vol w' = dst_vol w) \/
   ((r = Ok Copied \/ exists e, r = Raise e) /\
    trace w' = trace w ++ [EvMkdir (path_parent d); EvPrint (CopyLine (path_name s));
                           EvCopy s d])).
Proof.
  unfold do_copy, bind. rewrite mkdir_parents_run.
  destruct (hd None (faults w)) as [msg|].
  { intros H; inversion H; subst. cbn. split; [reflexivity|]. split; [reflexivity|].
    left. eauto. }
  destruct (mkdirs (dst_vol w) (path_parent d) (path_parent d)) as [t|e].
  2:{ intros H; inversion H; subst. cbn. split; [reflexivity|]. split; [reflexivity|].
      left. eauto. }
  unfold print, modify.
  destruct (copy2 s d _) as [[[]|e] w2] eqn:E; apply copy2_frame in E as [t' ->];
    unfold ret; intros H; inversion H; subst; cbn;
    (split; [reflexivity|]); (split; [reflexivity|]); right;
    rewrite <- !app_assoc; cbn; eauto.
Qed.

(** ** How the world evolves *)

Lemma copy_shaped_app evs1 evs2 :
  copy_shaped evs1 -> copy_shaped evs2 -> copy_shaped (evs1 ++ evs2).
Proof.
  induction 1; intros H2; cbn; auto using copy_shaped.
Qed.

Lemma copy_shaped_reads evs :
  forallb (fun ev => negb (is_write ev)) evs = true -> copy_shaped evs.
Proof.
  induction evs as [|ev evs IH]; cbn; intros H; [constructor|].
  apply andb_true_iff in H as [H1 H2].
  constructor; auto. now destruct (is_write ev).
Qed.

Lemma mkdir_free_app evs1 evs2 :
  mkdir_free (evs1 ++ evs2) <-> mkdir_free evs1 /\ mkdir_free evs2.
Proof.
  unfold mkdir_free. split.
  - intros H; split; intros p Hp; apply (H p), in_or_app; auto.
  - intros [H1 H2] p Hp. apply in_app_or in Hp as [Hp|Hp]; [apply (H1 p Hp)|apply (H2 p Hp)].
Qed.

Lemma evolves_refl w : evolves w w.
Proof.
  split; [reflexivity|reflexivity|].
  exists []. rewrite app_nil_r. auto using copy_shaped.
Qed.

Lemma evolves_trans w1 w2 w3 : evolves w1 w2 -> evolves w2 w3 -> evolves w1 w3.
Proof.
  intros [S1 N1 (e1 & T1 & C1 & D1)] [S2 N2 (e2 & T2 & C2 & D2)].
  split; [congruence|set_solver|].
  exists (e1 ++ e2). split; [rewrite T2, T1, app_assoc; reflexivity|].
  split; [apply copy_shaped_app; assumption|].
  intros F. apply mkdir_free_app in F as [F1 F2].
  rewrite (D2 F2). apply (D1 F1).
Qed.

(** A step that only appends events that do not write. *)
Lemma evolves_reads w w' evs :
  src_vol w' = src_vol w ->
  dst_vol w' = dst_vol w ->
  SEEN_FILES_FINGERPRINTS w ⊆ SEEN_FILES_FINGERPRINTS w' ->
  trace w' = trace w ++ evs ->
  forallb (fun ev => negb (is_write ev)) evs = true ->
  evolves w w'.
Proof.
  intros Hs Hd Hn Ht Hr. split; [assumption|assumption|].
  exists evs. split; [assumption|]. split; [now apply copy_shaped_reads|auto].
Qed.

Lemma syscall_evolves ev : is_write ev = false -> respects evolves (syscall ev).
Proof.
  intros Hev w r w' H.
  assert (w' = after ev w) as -> by (rewrite <- (syscall_world ev w), H; reflexivity).
  apply evolves_reads with (evs := [ev]); cbn; try reflexivity. now rewrite Hev.
Qed.

Lemma print_evolves l : respects evolves (print l).
Proof.
  intros w r w' H. inversion H; subst.
  apply evolves_reads with (evs := [EvPrint l]); reflexivity.
Qed.

Lemma path_stat_evolves v p : respects evolves (path_stat v p).
Proof.
  intros w r w' H. rewrite path_stat_run in H. inversion H; subst.
  apply evolves_reads with (evs := [EvStat v p]); reflexivity.
Qed.

Lemma path_exists_evolves v p : respects evolves (path_exists v p).
Proof.
  intros w r w' H. rewrite path_exists_run in H. inversion H; subst.
  apply evolves_reads with (evs := [EvExists v p]); reflexivity.
Qed.

Lemma get_file_fingerprint_evolves p : respects evolves (get_file_fingerprint p).
Proof.
  intros w r w' H. rewrite get_file_fingerprint_run in H. inversion H; subst.
  apply evolves_reads with (evs := [EvStat Src p]); reflexivity.
Qed.

Lemma path_is_dir_evolves p : respects evolves (path_is_dir p).
Proof.
  intros w r w' H. rewrite path_is_dir_run in H. inversion H; subst.
  apply evolves_reads with (evs := [EvIsDir p]); reflexivity.
Qed.

Lemma path_is_file_evolves p : respects evolves (path_is_file p).
Proof.
  intros w r w' H. rewrite path_is_file_run in H. inversion H; subst.
  apply evolves_reads with (evs := [EvIsFile p]); reflexivity.
Qed.

Lemma iterdir_evolves p : respects evolves (iterdir p).
Proof.
  intros w r w' H. rewrite iterdir_run in H. inversion H; subst.
  apply evolves_reads with (evs := [EvIterdir p]); reflexivity.
Qed.

Lemma is_hidden_evolves p : respects evolves (is_hidden p).
Proof.
  intros w r w' H. rewrite is_hidden_run in H. inversion H; subst.
  apply evolves_reads with (evs := [EvStat Src p]); reflexivity.
Qed.

Lemma add_seen_evolves fp : respects evolves (modify (add_seen fp)).
Proof.
  intros w r w' H. inversion H; subst.
  apply evolves_reads with (evs := []); cbn; try reflexivity.
  - set_solver.
  - now rewrite app_nil_r.
Qed.

Lemma comparison_reads k s d :
  forallb (fun ev => negb (is_write ev)) (firstn k (comparison s d)) = true.
Proof. destruct k as [|[|[|[|k]]]]; reflexivity. Qed.

(** The runs of the body of the [try]: a prefix of the comparison, then
    either nothing more, or a [mkdir] that raised, or a [mkdir] followed by
    the copy. *)
Lemma compare_and_copy_run s d w r w' :
  compare_and_copy s d w = (r, w') -> attempt_post s d w r w'.
Proof.
  assert (Hcopy : forall w0 k,
    src_vol w0 = src_vol w -> SEEN_FILES_FINGERPRINTS w0 = SEEN_FILES_FINGERPRINTS w ->
    dst_vol w0 = dst_vol w -> trace w0 = trace w ++ firstn (S k) (comparison s d) ->
    do_copy s d w0 = (r, w') -> attempt_post s d w r w').
  { intros w0 k Hs Hn Hd Ht H.
    apply do_copy_run in H as (Hs' & Hn' & H).
    split; [congruence|]. split; [congruence|]. exists k, (firstn (S k) (comparison s d)).
    split; [reflexivity|].
    destruct H as [(e & -> & Ht' & Hd')|(Hr & Ht')].
    - right; left. exists e. rewrite Ht', Ht, <- app_assoc. repeat split; congruence.
    - right; right. rewrite Ht', Ht, <- app_assoc. auto. }
  assert (Hstop : forall k w0,
    w' = w0 -> src_vol w0 = src_vol w ->
    SEEN_FILES_FINGERPRINTS w0 = SEEN_FILES_FINGERPRINTS w ->
    dst_vol w0 = dst_vol w -> trace w0 = trace w ++ firstn (S k) (comparison s d) ->
    (r = Ok SkippedUnchanged \/ exists e, r = Raise e) -> attempt_post s d w r w').
  { intros k w0 -> Hs Hn Hd Ht Hr. split; [assumption|]. split; [assumption|].
    exists k, (firstn (S k) (comparison s d)). split; [reflexivity|]. left. auto. }
  unfold compare_and_copy, bind. rewrite path_exists_run.
  destruct (hd None (faults w)) as [msg|] eqn:F0.
  { intros H; inversion H; subst. apply (Hstop 0%nat _ eq_refl); cbn; eauto. }
  cbn [vol]. destruct (find_node (dst_vol w) d) as [dn|].
  2:{ apply (Hcopy _ 0%nat); reflexivity. }
  rewrite path_stat_run.
  destruct (hd None (faults (after (EvExists Dst d) w))) as [msg|].
  { intros H; inversion H; subst.
    apply (Hstop 1%nat _ eq_refl); cbn; rewrite <- ?app_assoc; eauto. }
  destruct (find_node _ s) as [sn|].
  2:{ intros H; inversion H; subst.
      apply (Hstop 1%nat _ eq_refl); cbn; rewrite <- ?app_assoc; eauto. }
  rewrite path_stat_run.
  destruct (hd None (faults (after (EvStat Src s) _))) as [msg|].
  { intros H; inversion H; subst.
    apply (Hstop 2%nat _ eq_refl); cbn; rewrite <- ?app_assoc; eauto. }
  destruct (find_node _ d) as [dn'|].
  2:{ intros H; inversion H; subst.
      apply (Hstop 2%nat _ eq_refl); cbn; rewrite <- ?app_assoc; eauto. }
  destruct (_ && _).
  { intros H; inversion H; subst.
    apply (Hstop 2%nat _ eq_refl); cbn; rewrite <- ?app_assoc; eauto. }
  apply (Hcopy _ 2%nat); try reflexivity.
  cbn. now rewrite <- !app_assoc.
Qed.

Lemma guarded_copy_run s d w r w' :
  guarded_copy s d w = (r, w') ->
  (exists o, r = Ok o) /\
  evolves w w' /\
  SEEN_FILES_FINGERPRINTS w' = SEEN_FILES_FINGERPRINTS w /\
  (skipped r -> dst_vol w' = dst_vol w).
Proof.
  unfold guarded_copy, try_except.
  destruct (compare_and_copy s d w) as [r0 w0] eqn:E.
  apply compare_and_copy_run in E as (Hs & Hn & k & pre & Hk & H).
  assert (Hp : forallb (fun ev => negb (is_write ev)) pre = true)
    by (rewrite Hk; apply comparison_reads).
  clear Hk.
  assert (Hpre : copy_shaped pre) by now apply copy_shaped_reads.
  destruct H as [(Ht & Hd & Hr)|[(e & -> & Hd & Ht)|(Hr & Ht)]].
  - destruct Hr as [->|[e ->]]; intros H; inversion H; subst; cbn.
    + split; [eauto|]. split; [|auto].
      apply evolves_reads with (evs := pre); auto. now rewrite Hn.
    + split; [eauto|]. split; [|split; [assumption|intros [?|?]; discriminate]].
      apply evolves_reads with (evs := pre ++ [EvPrint (ErrorLine s e)]); cbn; auto.
      * now rewrite Hn.
      * now rewrite Ht, app_assoc.
      * rewrite forallb_app, Hp. reflexivity.
  - intros H; inversion H; subst; cbn.
    split; [eauto|]. split; [|split; [assumption|intros [?|?]; discriminate]].
    split; cbn; [assumption|now rewrite Hn|].
    exists (pre ++ [EvMkdir (path_parent d); EvPrint (ErrorLine s e)]).
    split; [rewrite Ht, <- !app_assoc; reflexivity|].
    split; [apply copy_shaped_app; auto using copy_shaped|].
    intros F. exfalso. apply (F (path_parent d)), in_or_app. right. now left.
  - assert (Hsh : forall tl, copy_shaped tl ->
        copy_shaped (pre ++ [EvMkdir (path_parent d); EvPrint (CopyLine (path_name s));
                             EvCopy s d] ++ tl)).
    { intros tl Htl. apply copy_shaped_app; [assumption|]. cbn. now constructor. }
    destruct Hr as [->|[e ->]]; intros H; inversion H; subst; cbn.
    + split; [eauto|]. split; [|split; [assumption|intros [?|?]; discriminate]].
      split; cbn; [assumption|now rewrite Hn|].
      eexists. split; [exact Ht|]. split.
      * specialize (Hsh [] shaped_nil). now rewrite app_nil_r in Hsh.
      * intros F. exfalso. apply (F (path_parent d)), in_or_app. right. now left.
    + split; [eauto|]. split; [|split; [assumption|intros [?|?]; discriminate]].
      split; cbn; [assumption|now rewrite Hn|].
      eexists. split; [rewrite Ht, <- !app_assoc; reflexivity|]. split.
      * apply (Hsh [EvPrint (ErrorLine s e)]). now repeat constructor.
      * intros F. exfalso. apply (F (path_parent d)), in_or_app. right. now left.
Qed.

Lemma process_file_run s d w r w' :
  process_file s d w = (r, w') ->
  (exists o, r = Ok o) /\
  evolves w w' /\
  (skipped r -> dst_vol w' = dst_vol w).
Proof.
  unfold process_file, bind. rewrite get_file_fingerprint_run.
  set (w0 := after (EvStat Src s) w).
  assert (E0 : evolves w w0)
    by (apply evolves_reads with (evs := [EvStat Src s]); reflexivity).
  assert (Hg : forall w1, evolves w w1 -> dst_vol w1 = dst_vol w ->
             guarded_copy s d w1 = (r, w') ->
             (exists o, r = Ok o) /\ evolves w w' /\ (skipped r -> dst_vol w' = dst_vol w)).
  { intros w1 E1 D1 H. apply guarded_copy_run in H as (Ho & Ev & _ & Hd).
    split; [assumption|]. split; [eapply evolves_trans; eassumption|].
    intros Hsk. rewrite (Hd Hsk). assumption. }
  destruct (match hd None (faults w) with Some _ => _ | None => _ end) as [fp|].
  2:{ apply Hg; [assumption|reflexivity]. }
  unfold read. destruct (bool_decide _).
  - intros H; inversion H; subst. split; [eauto|]. split; [assumption|reflexivity].
  - unfold modify. apply Hg; [|reflexivity].
    eapply evolves_trans; [exact E0|]. eapply add_seen_evolves. reflexivity.
Qed.

Lemma process_file_total s d : total (process_file s d).
Proof.
  intros w. destruct (process_file s d w) as [r w'] eqn:E.
  destruct (process_file_run _ _ _ _ _ E) as ([o ->] & _). eauto.
Qed.

Lemma process_file_evolves s d : respects evolves (process_file s d).
Proof. intros w r w' H. now apply process_file_run in H. Qed.

(** ** Loops *)

Lemma bind_cong {A B} (c1 c2 : M A) (k1 k2 : A -> M B) w :
  c1 w = c2 w -> (forall a w', k1 a w' = k2 a w') -> bind c1 k1 w = bind c2 k2 w.
Proof.
  intros Hc Hk. unfold bind. rewrite Hc.
  destruct (c2 w) as [[a|e] w']; [apply Hk|reflexivity].
Qed.

Lemma bind_assoc {A B C} (c : M A) (k : A -> M B) (h : B -> M C) w :
  bind (bind c k) h w = bind c (fun a => bind (k a) h) w.
Proof.
  unfold bind. destruct (c w) as [[a|e] w']; reflexivity.
Qed.

Lemma for_each_ext {A} (l : list A) (body1 body2 : A -> M unit) :
  (forall x w, body1 x w = body2 x w) ->
  forall w, for_each l body1 w = for_each l body2 w.
Proof.
  intros Hb. induction l as [|x l IH]; intros w; cbn [for_each]; [reflexivity|].
  apply bind_cong; auto.
Qed.

Lemma for_each_app {A} (l1 l2 : list A) (body : A -> M unit) w :
  for_each (l1 ++ l2) body w =
  bind (for_each l1 body) (fun _ => for_each l2 body) w.
Proof.
  revert w. induction l1 as [|x l1 IH]; intros w; cbn [for_each app].
  - reflexivity.
  - rewrite bind_assoc. apply bind_cong; auto.
Qed.

Lemma for_each_map {A B} (g : A -> B) (l : list A) (body : B -> M unit) w :
  for_each (map g l) body w = for_each l (fun x => body (g x)) w.
Proof.
  revert w. induction l as [|x l IH]; intros w; cbn [for_each map]; [reflexivity|].
  apply bind_cong; auto.
Qed.

(** ** Directory trees *)

Lemma node_induction (P : node -> Prop) :
  (forall st, P (File st)) ->
  (forall st es, Forall (fun e => P (snd e)) es -> P (Dir st es)) ->
  forall n, P n.
Proof.
  intros HF HD. fix IH 1. intros [st|st es]; [apply HF|apply HD].
  induction es as [|e es IHes]; constructor; [apply IH|apply IHes].
Qed.

Lemma relative_to_app base rel : relative_to (base ++ rel) base = Some rel.
Proof.
  induction base as [|b base IH]; cbn; [reflexivity|].
  now rewrite String.eqb_refl.
Qed.

(** The loop over [os.walk] passes exactly the mirrored files of the tree to
    the evaluator, in walk order. *)
Lemma walk_mirror src dst : forall n rel w,
  for_each (walk (src ++ rel) n) (mirror_files src dst) w =
  evaluate_all
    (map (fun r => (path_concat src (rel ++ r), path_concat dst (rel ++ r)))
         (files_under n)) w.
Proof.
  induction n as [st|st es IH] using node_induction; intros rel w.
  - reflexivity.
  - cbn [walk files_under for_each]. unfold evaluate_all.
    rewrite map_app, for_each_app. apply bind_cong.
    + unfold mirror_files. rewrite relative_to_app.
      rewrite map_map, for_each_map. apply for_each_ext. intros f w1.
      unfold path_join, path_concat. cbn [fst snd]. now rewrite <- !app_assoc.
    + intros _ w1. clear w. revert w1.
      induction IH as [|[k c] es Hc Hes IHes]; intros w1; cbn [flat_map].
      * reflexivity.
      * rewrite map_app, !for_each_app. apply bind_cong; [|intros _; apply IHes].
        unfold path_join. cbn [fst snd] in Hc |- *.
        rewrite <- app_assoc, (Hc (rel ++ [k]) w1). unfold evaluate_all.
        rewrite map_map. f_equal. apply map_ext. intros r.
        now rewrite <- !app_assoc.
Qed.

Lemma sync_folder_recursive_run src dst n w :
  find_node (src_vol w) src = Some n ->
  hd None (faults w) = None ->
  sync_folder_recursive src dst w =
  evaluate_all (mirror src dst n) (after (EvExists Src src) w).
Proof.
  intros Hn Hf. unfold sync_folder_recursive, bind. rewrite path_exists_run, Hf.
  cbn [vol]. rewrite Hn. cbn [negb]. unfold os_walk, read. cbn [after pop_fault record src_vol].
  rewrite Hn. rewrite <- (app_nil_r src) at 1.
  rewrite walk_mirror. reflexivity.
Qed.

Lemma sync_folder_recursive_missing src dst w :
  find_node (src_vol w) src = None ->
  hd None (faults w) = None ->
  sync_folder_recursive src dst w = (Ok tt, after (EvExists Src src) w).
Proof.
  intros Hn Hf. unfold sync_folder_recursive, bind. rewrite path_exists_run, Hf.
  cbn [vol]. rewrite Hn. reflexivity.
Qed.

Lemma wf_node_dir st es :
  wf_node (Dir st es) <->
  List.NoDup (map fst es) /\ Forall (fun e => wf_node (snd e)) es.
Proof.
  cbn [wf_node]. apply and_iff_compat_l.
  induction es as [|e es IH]; [split; constructor|].
  split.
  - intros [H1 H2]. constructor; [assumption|now apply IH].
  - intros H. inversion H; subst. split; [assumption|now apply IH].
Qed.

Lemma lookup_entry_In k c es : lookup_entry k es = Some c -> In (k, c) es.
Proof.
  induction es as [|[k' c'] es IH]; cbn; [discriminate|].
  destruct (String.eqb_spec k' k) as [->|Hne].
  - intros [= ->]. now left.
  - intros H. right. auto.
Qed.

Lemma lookup_entry_NoDup k c es :
  List.NoDup (map fst es) -> In (k, c) es -> lookup_entry k es = Some c.
Proof.
  induction es as [|[k' c'] es IH]; cbn; [intros _ []|].
  intros Hnd [Heq|Hin]; inversion Hnd as [|? ? Hnotin Hnd']; subst.
  - inversion Heq; subst. now rewrite String.eqb_refl.
  - destruct (String.eqb_spec k' k) as [->|Hne]; [|auto].
    exfalso. apply Hnotin. apply in_map_iff. now exists (k, c).
Qed.

Lemma in_file_names f es :
  In f (file_names es) <-> exists s, In (f, File s) es.
Proof.
  unfold file_names. rewrite in_map_iff. split.
  - intros ([k c] & <- & H). apply filter_In in H as [H1 H2].
    destruct c as [s|s l]; [|discriminate]. now exists s.
  - intros (s & H). exists (f, File s). split; [reflexivity|].
    apply filter_In. now split.
Qed.

Lemma in_files_under_dir rel st es :
  In rel (files_under (Dir st es)) <->
  (exists f s, rel = [f] /\ In (f, File s) es) \/
  (exists k c r, rel = k :: r /\ In (k, c) es /\ In r (files_under c)).
Proof.
  cbn [files_under]. rewrite in_app_iff, in_map_iff, in_flat_map.
  split; intros [H|H]; [left|right|left|right].
  - destruct H as (f & <- & H). apply in_file_names in H as [s H]. eauto.
  - destruct H as ([k c] & Hin & H). cbn [fst snd] in H.
    apply in_map_iff in H as (r & <- & H). eauto 6.
  - destruct H as (f & s & -> & H). exists f. split; [reflexivity|].
    apply in_file_names. eauto.
  - destruct H as (k & c & r & -> & Hin & H). exists (k, c). split; [assumption|].
    cbn [fst snd]. apply in_map_iff. eauto.
Qed.

Lemma files_under_nonempty n : ~ In [] (files_under n).
Proof.
  destruct n as [st|st es]; [intros []|].
  rewrite in_files_under_dir.
  intros [(f & s & H & _)|(k & c & r & H & _)]; discriminate.
Qed.

(** Every regular file below a directory is listed, whatever its attributes. *)
Lemma files_under_complete : forall n rel st,
  rel <> [] -> find_node n rel = Some (File st) -> In rel (files_under n).
Proof.
  induction n as [s|s es IH] using node_induction; intros rel st Hne Hf.
  - destruct rel; [congruence|discriminate].
  - destruct rel as [|k r]; [congruence|]. cbn [find_node] in Hf.
    destruct (lookup_entry k es) as [c|] eqn:E; [|discriminate].
    apply lookup_entry_In in E. apply in_files_under_dir.
    destruct r as [|k' r'].
    + cbn in Hf. inversion Hf; subst. left. eauto.
    + right. exists k, c, (k' :: r'). split; [reflexivity|]. split; [assumption|].
      rewrite List.Forall_forall in IH. apply (IH _ E) with (st := st); [discriminate|assumption].
Qed.

Lemma files_under_sound : forall n rel,
  wf_node n -> In rel (files_under n) -> exists st, find_node n rel = Some (File st).
Proof.
  induction n as [s|s es IH] using node_induction; intros rel Hwf Hin.
  - destruct Hin.
  - apply wf_node_dir in Hwf as [Hnd Hall].
    apply in_files_under_dir in Hin as [(f & st & -> & Hin)|(k & c & r & -> & Hin & Hr)].
    + exists st. cbn. now rewrite (lookup_entry_NoDup _ _ _ Hnd Hin).
    + cbn [find_node]. rewrite (lookup_entry_NoDup _ _ _ Hnd Hin).
      rewrite List.Forall_forall in IH, Hall.
      apply (IH _ Hin); [apply (Hall _ Hin)|assumption].
Qed.

Lemma files_under_NoDup : forall n, wf_node n -> List.NoDup (files_under n).
Proof.
  induction n as [s|s es IH] using node_induction; intros Hwf; [constructor|].
  apply wf_node_dir in Hwf as [Hnd Hall]. cbn [files_under].
  apply List.NoDup_app.
  - apply Finite.Injective_map_NoDup; [intros x y [= ->]; reflexivity|].
    unfold file_names.
    clear IH Hall. induction es as [|[k c] es IHes]; cbn; [constructor|].
    inversion Hnd as [|? ? Hnotin Hnd']; subst.
    destruct (node_is_file c); cbn; [|auto].
    constructor; [|auto]. intros Hin. apply Hnotin.
    apply in_map_iff in Hin as (e & He & Hin). apply filter_In in Hin as [Hin _].
    apply in_map_iff. eauto.
  - clear s. induction es as [|[k c] es IHes]; cbn [flat_map]; [constructor|].
    inversion Hnd as [|? ? Hnotin Hnd']; subst.
    inversion IH as [|? ? IHc IH']; subst. inversion Hall as [|? ? Hc Hall']; subst.
    cbn [fst snd] in *. apply List.NoDup_app.
    + apply Finite.Injective_map_NoDup; [intros x y [= ->]; reflexivity|auto].
    + auto.
    + intros rel H1 H2. apply in_map_iff in H1 as (r & <- & _).
      apply in_flat_map in H2 as ([k' c'] & Hin & H2). cbn [fst snd] in H2.
      apply in_map_iff in H2 as (r' & [= -> ->] & _).
      apply Hnotin, in_map_iff. now exists (k, c').
  - intros rel H1 H2. apply in_map_iff in H1 as (f & <- & _).
    apply in_flat_map in H2 as ([k c] & Hin & H2). cbn [fst snd] in H2.
    apply in_map_iff in H2 as (r & [= -> ->] & H2).
    now apply files_under_nonempty in H2.
Qed.

(** ** The walkers only evolve the world *)

Create HintDb io discriminated.

#[local] Hint Resolve evolves_refl evolves_trans : io.
#[local] Hint Resolve path_stat_evolves path_exists_evolves print_evolves
  path_is_dir_evolves path_is_file_evolves iterdir_evolves
  get_file_fingerprint_evolves is_hidden_evolves add_seen_evolves
  process_file_evolves : io.

Lemma evolves_ret {A} (a : A) : respects evolves (ret a).
Proof. apply respects_ret, evolves_refl. Qed.

Lemma evolves_raise {A} e : respects evolves (@raise A e).
Proof. apply respects_raise, evolves_refl. Qed.

Lemma evolves_read {A} (f : world -> A) : respects evolves (read f).
Proof. apply respects_read, evolves_refl. Qed.

Lemma evolves_bind {A B} (c : M A) (k : A -> M B) :
  respects evolves c -> (forall a, respects evolves (k a)) ->
  respects evolves (bind c k).
Proof. apply respects_bind, evolves_trans. Qed.

Lemma evolves_for_each {A} (l : list A) (body : A -> M unit) :
  (forall x, respects evolves (body x)) -> respects evolves (for_each l body).
Proof. apply respects_for_each; [apply evolves_refl|apply evolves_trans]. Qed.

#[local] Hint Resolve evolves_ret evolves_raise evolves_read : io.

Ltac respects_step :=
  first
    [ solve [eauto with io]
    | apply evolves_bind; [|intros ?]
    | apply evolves_for_each; intros ? ].

Lemma evaluate_all_evolves cs : respects evolves (evaluate_all cs).
Proof. unfold evaluate_all. repeat respects_step. Qed.

Lemma mirror_files_evolves src dst t : respects evolves (mirror_files src dst t).
Proof.
  destruct t as [[root dirs] files]. unfold mirror_files.
  destruct (relative_to root src); repeat respects_step.
Qed.

Lemma sync_folder_recursive_evolves src dst :
  respects evolves (sync_folder_recursive src dst).
Proof.
  unfold sync_folder_recursive, os_walk. respects_step; [respects_step|].
  destruct (negb _); repeat respects_step. apply mirror_files_evolves.
Qed.

Lemma dispatch_entry_evolves dst item : respects evolves (dispatch_entry dst item).
Proof.
  unfold dispatch_entry.
  apply evolves_bind; [respects_step|intros [|]].
  - apply sync_folder_recursive_evolves.
  - apply evolves_bind; [respects_step|intros [|]]; repeat respects_step.
Qed.

Lemma visit_top_level_evolves dst item : respects evolves (visit_top_level dst item).
Proof.
  unfold visit_top_level.
  apply evolves_bind; [respects_step|intros [|]];
    [respects_step|apply dispatch_entry_evolves].
Qed.

Lemma sync_documents_special_evolves src dst :
  respects evolves (sync_documents_special src dst).
Proof.
  unfold sync_documents_special.
  apply evolves_bind; [respects_step|intros ex].
  destruct (negb ex); [respects_step|].
  apply evolves_bind; [respects_step|intros _].
  apply evolves_bind; [respects_step|intros items].
  apply evolves_for_each. intros item. apply visit_top_level_evolves.
Qed.

Lemma run_tasks_evolves ts root : respects evolves (run_tasks ts root).
Proof.
  unfold run_tasks. apply evolves_for_each. intros [[src sub] [|]].
  - apply evolves_bind; [respects_step|intros _].
    apply sync_documents_special_evolves.
  - apply evolves_bind; [respects_step|intros _].
    apply sync_folder_recursive_evolves.
Qed.

Lemma later_evolves w w' : later w w' -> evolves w w'.
Proof.
  induction 1 as [w|s d w r w1 w' H _ IH|s d w r w1 w' H _ IH
                  |s d w r w1 w' H _ IH|ts root w r w1 w' H _ IH].
  - apply evolves_refl.
  - eapply evolves_trans; [eapply process_file_evolves, H|exact IH].
  - eapply evolves_trans; [eapply sync_folder_recursive_evolves, H|exact IH].
  - eapply evolves_trans; [eapply sync_documents_special_evolves, H|exact IH].
  - eapply evolves_trans; [eapply run_tasks_evolves, H|exact IH].
Qed.

(** ** The registry *)

(** A file whose fingerprint is already registered is skipped after the one
    [stat] that computed the fingerprint. *)
Lemma process_file_duplicate s d fp w :
  fst (get_file_fingerprint s w) = Ok (Some fp) ->
  fp ∈ SEEN_FILES_FINGERPRINTS w ->
  process_file s d w = (Ok SkippedDuplicate, after (EvStat Src s) w).
Proof.
  intros Hfp Hin. unfold process_file, bind.
  destruct (get_file_fingerprint s w) as [r w0] eqn:E. cbn in Hfp. subst r.
  rewrite get_file_fingerprint_run in E. inversion E as [[E1 E2]].
  unfold read. cbn [after pop_fault record SEEN_FILES_FINGERPRINTS].
  rewrite bool_decide_eq_true_2 by assumption. reflexivity.
Qed.

(** A new fingerprint is registered before the [try] block is entered. *)
Lemma process_file_new s d fp w :
  fst (get_file_fingerprint s w) = Ok (Some fp) ->
  fp ∉ SEEN_FILES_FINGERPRINTS w ->
  process_file s d w = guarded_copy s d (add_seen fp (after (EvStat Src s) w)).
Proof.
  intros Hfp Hin. unfold process_file, bind.
  destruct (get_file_fingerprint s w) as [r w0] eqn:E. cbn in Hfp. subst r.
  rewrite get_file_fingerprint_run in E. inversion E as [[E1 E2]].
  unfold read. cbn [after pop_fault record SEEN_FILES_FINGERPRINTS].
  rewrite bool_decide_eq_false_2 by assumption. reflexivity.
Qed.

(** Without a fingerprint the [try] block is entered at once. *)
Lemma process_file_no_fingerprint s d w :
  fst (get_file_fingerprint s w) = Ok None ->
  process_file s d w = guarded_copy s d (after (EvStat Src s) w).
Proof.
  intros Hfp. unfold process_file, bind.
  destruct (get_file_fingerprint s w) as [r w0] eqn:E. cbn in Hfp. subst r.
  rewrite get_file_fingerprint_run in E. inversion E as [[E1 E2]]. reflexivity.
Qed.

Lemma process_file_registers s d fp w r w' :
  fst (get_file_fingerprint s w) = Ok (Some fp) ->
  process_file s d w = (r, w') ->
  fp ∈ SEEN_FILES_FINGERPRINTS w'.
Proof.
  intros Hfp H.
  destruct (decide (fp ∈ SEEN_FILES_FINGERPRINTS w)) as [Hin|Hin].
  - rewrite (process_file_duplicate _ _ _ _ Hfp Hin) in H. inversion H; subst. exact Hin.
  - rewrite (process_file_new _ _ _ _ Hfp Hin) in H.
    destruct (guarded_copy_run _ _ _ _ _ H) as (_ & _ & Hn & _).
    rewrite Hn. cbn. apply elem_of_union_l, elem_of_singleton. reflexivity.
Qed.

(** ** The claims *)

(** The [try] block on a destination that exists and whose comparison goes
    through: the decision is exactly [size_match and time_match]. *)
Lemma guarded_copy_existing s d sn dn w :
  fault_at 0 w = None -> fault_at 1 w = None -> fault_at 2 w = None ->
  find_node (src_vol w) s = Some sn ->
  find_node (dst_vol w) d = Some dn ->
  let w3 := after (EvStat Dst d) (after (EvStat Src s) (after (EvExists Dst d) w)) in
  guarded_copy s d w =
  if (st_size (node_stat sn) =? st_size (node_stat dn))
     && (st_mtime (node_stat sn) <=? st_mtime (node_stat dn) + 5)%float
  then (Ok SkippedUnchanged, w3)
  else try_except (do_copy s d)
                  (fun e => print (ErrorLine s e) ;; ret Failed) w3.
Proof.
  unfold fault_at. intros F0 F1 F2 Hs Hd.
  unfold guarded_copy, try_except, compare_and_copy, bind.
  rewrite path_exists_run.
  replace (hd None (faults w)) with (@None string)
    by (destruct (faults w); [reflexivity|symmetry; exact F0]).
  cbn [vol]. rewrite Hd. rewrite path_stat_run.
  replace (hd None (faults (after (EvExists Dst d) w))) with (@None string)
    by (cbn; destruct (faults w) as [|? [|? ?]]; try reflexivity; symmetry; exact F1).
  cbn [vol after pop_fault record src_vol]. rewrite Hs. rewrite path_stat_run.
  replace (hd None (faults _)) with (@None string)
    by (cbn; destruct (faults w) as [|? [|? [|? ?]]]; try reflexivity; symmetry; exact F2).
  cbn [vol after pop_fault record dst_vol]. rewrite Hd.
  destruct (_ && _); reflexivity.
Qed.

(** Once step 3 is reached, the parent chain is requested and the outcome is
    Copied or Failed. *)
Lemma guarded_do_copy s d w r w' :
  try_except (do_copy s d) (fun e => print (ErrorLine s e) ;; ret Failed) w = (r, w') ->
  (r = Ok Copied \/ r = Ok Failed) /\
  exists evs, trace w' = trace w ++ EvMkdir (path_parent d) :: evs.
Proof.
  unfold try_except. destruct (do_copy s d w) as [r0 w0] eqn:E.
  apply do_copy_run in E as (_ & _ & [(e & -> & Ht & _)|([->|[e ->]] & Ht)]);
    intros H; inversion H; subst; cbn; rewrite Ht, <- ?app_assoc; cbn; eauto.
Qed.

(** C1. When the destination path exists, the file is not a registry
    duplicate and the comparison itself goes through, the evaluator returns
    SkippedUnchanged - having made no call beyond the comparison and
    leaving the destination volume as it was - exactly when the sizes are
    equal and the source modification time is at most the destination
    modification time plus 5 seconds, the sum and the comparison being those
    of line 100, on binary64 floats; otherwise it proceeds to the copy (the
    parent chain is requested and the outcome is Copied or Failed). *)
Theorem unchanged_iff_size_and_time
  (w : world) (src_file dst_file : path) (sn dn : node)
  (Hexists : find_node (dst_vol w) dst_file = Some dn)
  (Hsrc : find_node (src_vol w) src_file = Some sn)
  (Hnew : forall fp, fst (get_file_fingerprint src_file w) = Ok (Some fp) ->
                     fp ∉ SEEN_FILES_FINGERPRINTS w)
  (Hcmp : fault_at 1 w = None /\ fault_at 2 w = None /\ fault_at 3 w = None) :
  let size_match := st_size (node_stat sn) = st_size (node_stat dn) in
  let time_match :=
    (st_mtime (node_stat sn) <=? st_mtime (node_stat dn) + 5)%float = true in
  let run := process_file src_file dst_file w in
  let compared := trace w ++ EvStat Src src_file :: comparison src_file dst_file in
  (fst run = Ok SkippedUnchanged <-> size_match /\ time_match) /\
  (size_match /\ time_match ->
     trace (snd run) = compared /\ dst_vol (snd run) = dst_vol w) /\
  (~ (size_match /\ time_match) ->
     (fst run = Ok Copied \/ fst run = Ok Failed) /\
     exists evs, trace (snd run) = compared ++ EvMkdir (path_parent dst_file) :: evs).
Proof.
  intros size_match time_match run compared.
  destruct Hcmp as (F1 & F2 & F3).
  set (w0 := after (EvStat Src src_file) w).
  assert (Hrun : exists w1, run = guarded_copy src_file dst_file w1 /\
             faults w1 = List.tl (faults w) /\ src_vol w1 = src_vol w /\
             dst_vol w1 = dst_vol w /\ trace w1 = trace w ++ [EvStat Src src_file]).
  { destruct (get_file_fingerprint src_file w) as [r wf] eqn:Hfp.
    pose proof (get_file_fingerprint_run src_file w) as Hr. rewrite Hfp in Hr.
    injection Hr as Hr _.
    destruct (match hd None (faults w) with Some _ => _ | None => _ end) as [fp|];
      subst r.
    - exists (add_seen fp w0). split; [|repeat split].
      apply process_file_new; [now rewrite Hfp|].
      apply Hnew. reflexivity.
    - exists w0. split; [|repeat split].
      apply process_file_no_fingerprint. now rewrite Hfp. }
  destruct Hrun as (w1 & Hrun & Hf & Hs & Hd & Ht).
  assert (G := guarded_copy_existing src_file dst_file sn dn w1).
  unfold fault_at in *. rewrite Hf, Hs, Hd in G.
  assert (Hnth : forall k, nth k (List.tl (faults w)) None = nth (S k) (faults w) None).
  { intros k. destruct (faults w); [now destruct k|reflexivity]. }
  rewrite !Hnth in G. specialize (G F1 F2 F3 Hsrc Hexists). cbv zeta in G.
  rewrite <- Hrun in G.
  assert (Hdec : (st_size (node_stat sn) =? st_size (node_stat dn))
                 && (st_mtime (node_stat sn) <=? st_mtime (node_stat dn) + 5)%float = true
                 <-> size_match /\ time_match).
  { rewrite andb_true_iff, Z.eqb_eq. reflexivity. }
  destruct (_ && _) eqn:B.
  - assert (Hm : size_match /\ time_match) by now apply Hdec.
    rewrite G. cbn [fst snd after pop_fault record trace dst_vol].
    split; [tauto|]. split; [|tauto].
    intros _. split; [|assumption].
    unfold compared, comparison. rewrite Ht, <- !app_assoc. reflexivity.
  - assert (Hm : ~ (size_match /\ time_match))
      by (intros Hm; apply Hdec in Hm; discriminate).
    destruct run as [r w'] eqn:Er. cbn [fst snd].
    symmetry in G. apply guarded_do_copy in G as (Hr & evs & Hevs).
    split; [|split; [tauto|]].
    + split; [intros ->; destruct Hr; discriminate|tauto].
    + intros _. split; [assumption|]. exists evs. rewrite Hevs.
      cbn [after pop_fault record trace]. unfold compared, comparison.
      rewrite Ht, <- !app_assoc. reflexivity.
Qed.

(** The source was modified at 5.2 and the archived file at 0.2 (the nearest
    floats, written exactly): the floating-point sum of 0.2 and 5 is the
    float 5.2, the comparison holds, and the file is unchanged. *)
Lemma unchanged_iff_size_and_time_witness :
  let src_mtime := 0x1.4cccccccccccdp+2%float in
  let dst_mtime := 0x1.999999999999ap-3%float in
  let w := mk_world (folder 0 [("a.txt", file 100 src_mtime 0)])
                    (folder 0 [("a.txt", file 100 dst_mtime 0)]) ∅ [] [] in
  find_node (dst_vol w) ["a.txt"] = Some (file 100 dst_mtime 0) /\
  find_node (src_vol w) ["a.txt"] = Some (file 100 src_mtime 0) /\
  (fst (process_file ["a.txt"] ["a.txt"] w) = Ok SkippedUnchanged <->
   100 = 100 /\ (src_mtime <=? dst_mtime + 5)%float = true) /\
  fst (process_file ["a.txt"] ["a.txt"] w) = Ok SkippedUnchanged.
Proof.
  intros src_mtime dst_mtime w.
  assert (H : fst (process_file ["a.txt"] ["a.txt"] w) = Ok SkippedUnchanged <->
              100 = 100 /\ (src_mtime <=? dst_mtime + 5)%float = true).
  { refine (proj1 (unchanged_iff_size_and_time w ["a.txt"] ["a.txt"]
                     (file 100 src_mtime 0) (file 100 dst_mtime 0)
                     eq_refl eq_refl _ _)).
    - intros fp _. apply not_elem_of_empty.
    - repeat split. }
  split; [reflexivity|]. split; [reflexivity|]. split; [exact H|].
  apply H. split; reflexivity.
Defined.

(** The [try] block always begins with the existence check of the
    destination, and never answers SkippedDuplicate. *)
Lemma guarded_copy_probes s d w r w' :
  guarded_copy s d w = (r, w') ->
  r <> Ok SkippedDuplicate /\
  exists evs, trace w' = trace w ++ EvExists Dst d :: evs.
Proof.
  unfold guarded_copy, try_except.
  destruct (compare_and_copy s d w) as [r0 w0] eqn:E.
  apply compare_and_copy_run in E as (_ & _ & k & pre & -> & H).
  cbn [comparison firstn] in H.
  destruct H as [(Ht & _ & [->|[e ->]])|[(e & -> & _ & Ht)|([->|[e ->]] & Ht)]];
    intros H; inversion H; subst; (split; [discriminate|]);
    cbn [record trace]; rewrite Ht, <- ?app_assoc; cbn [app]; eauto.
Qed.

Lemma later_seen w w' fp :
  later w w' -> fp ∈ SEEN_FILES_FINGERPRINTS w -> fp ∈ SEEN_FILES_FINGERPRINTS w'.
Proof.
  intros H Hin. apply later_evolves in H. destruct H as [_ Hsub _]. auto.
Qed.





(** C5. When the [stat] of the source raises, the fingerprint computation
    answers [None] instead of raising; the registry is then neither
    consulted nor extended, the outcome is never SkippedDuplicate, and the
    file goes straight to the [try] block - existence check of the
    destination, comparison and, if needed, copy. *)
Theorem fingerprint_failure_bypasses_registry
  (w : world) (src_file dst_file : path) (e : exn)
  (Hstat : fst (path_stat Src src_file w) = Raise e) :
  let w0 := after (EvStat Src src_file) w in
  get_file_fingerprint src_file w = (Ok None, w0) /\
  SEEN_FILES_FINGERPRINTS w0 = SEEN_FILES_FINGERPRINTS w /\
  process_file src_file dst_file w = guarded_copy src_file dst_file w0 /\
  forall r w1, process_file src_file dst_file w = (r, w1) ->
    SEEN_FILES_FINGERPRINTS w1 = SEEN_FILES_FINGERPRINTS w /\
    r <> Ok SkippedDuplicate /\
    exists evs,
      trace w1 = trace w ++ EvStat Src src_file :: EvExists Dst dst_file :: evs.
Proof.
  intros w0.
  assert (Hfp : get_file_fingerprint src_file w = (Ok None, w0)).
  { rewrite get_file_fingerprint_run. rewrite path_stat_run in Hstat.
    cbn [fst vol] in Hstat. destruct (hd None (faults w)); [reflexivity|].
    destruct (find_node (src_vol w) src_file); [discriminate|reflexivity]. }
  assert (Hrun : process_file src_file dst_file w = guarded_copy src_file dst_file w0).
  { apply process_file_no_fingerprint. now rewrite Hfp. }
  split; [exact Hfp|]. split; [reflexivity|]. split; [exact Hrun|].
  intros r w1 H. rewrite Hrun in H.
  destruct (guarded_copy_run _ _ _ _ _ H) as (_ & _ & Hn & _).
  destruct (guarded_copy_probes _ _ _ _ _ H) as (Hr & evs & Ht).
  split; [exact Hn|]. split; [exact Hr|].
  exists evs. rewrite Ht. cbn. now rewrite <- app_assoc.
Qed.

(** The [stat] of the fingerprint fails once; the file is copied all the
    same, and nothing is registered. *)
Lemma fingerprint_failure_bypasses_registry_witness :
  let w := example_world [Some "device not ready"] in
  let s := ["docs"; "a.txt"] in
  let d := ["bk"; "docs"; "a.txt"] in
  fst (path_stat Src s w) = Raise (OSError "device not ready") /\
  process_file s d w = guarded_copy s d (after (EvStat Src s) w) /\
  fst (process_file s d w) = Ok Copied /\
  SEEN_FILES_FINGERPRINTS (snd (process_file s d w)) = ∅.
Proof.
  intros w s d.
  assert (H : fst (path_stat Src s w) = Raise (OSError "device not ready"))
    by reflexivity.
  destruct (fingerprint_failure_bypasses_registry w s d _ H) as (_ & _ & Hrun & Hall).
  destruct (Hall _ _ (surjective_pairing _)) as (Hseen & _).
  split; [exact H|]. split; [exact Hrun|]. split; [reflexivity|exact Hseen].
Defined.

Lemma reaches_copy_run s d w w1 r w' :
  reaches_copy s d w w1 ->
  do_copy s d w1 = (r, w') -> compare_and_copy s d w = (r, w').
Proof.
  intros [H|(wa & wb & st1 & st2 & H1 & H2 & H3 & H4)] Hc;
    unfold compare_and_copy, bind.
  - now rewrite H.
  - rewrite H1, H2, H3, H4. exact Hc.
Qed.

Lemma raises_during_run s d w e w' :
  raises_during s d w e w' -> compare_and_copy s d w = (Raise e, w').
Proof.
  intros [H|wa H1 H2|wa st wb H1 H2 H3|w1 Hr H|w1 w2 Hr H1 H2].
  - unfold compare_and_copy, bind. now rewrite H.
  - unfold compare_and_copy, bind. now rewrite H1, H2.
  - unfold compare_and_copy, bind. now rewrite H1, H2, H3.
  - apply (reaches_copy_run _ _ _ _ _ _ Hr). unfold do_copy, bind. now rewrite H.
  - apply (reaches_copy_run _ _ _ _ _ _ Hr). unfold do_copy, bind.
    rewrite H1. unfold print, modify. now rewrite H2.
Qed.

Lemma evaluate_all_total cs : total (evaluate_all cs).
Proof.
  induction cs as [|c cs IH]; intros w; unfold evaluate_all; cbn [for_each].
  - exists tt, w. reflexivity.
  - unfold bind. destruct (process_file_total (fst c) (snd c) w) as (o & w1 & ->).
    cbn [ret]. apply IH.
Qed.

(** C4. The evaluator never lets an exception escape, whatever the fault
    schedule.  An exception raised at any stage of the attempt - existence
    check of the destination, [stat] comparison, creation of the parent
    directories, copy - ends the attempt with the outcome Failed and one
    more printed line, which carries the source path and the exception.
    The loop over the candidates then goes on with the next candidate, and
    the traversal of an existing root ends normally. *)
Theorem failures_caught_and_reported (src_file dst_file : path) :
  total (process_file src_file dst_file) /\
  (forall w e w',
     raises_during src_file dst_file w e w' ->
     guarded_copy src_file dst_file w
     = (Ok Failed, record (EvPrint (ErrorLine src_file e)) w')) /\
  (forall w r w',
     process_file src_file dst_file w = (r, w') ->
     r = Ok SkippedDuplicate \/
     exists w0, evolves w w0 /\ guarded_copy src_file dst_file w0 = (r, w')) /\
  (forall cs w,
     evaluate_all ((src_file, dst_file) :: cs) w
     = evaluate_all cs (snd (process_file src_file dst_file w))) /\
  (forall cs, total (evaluate_all cs)) /\
  (forall n w,
     find_node (src_vol w) src_file = Some n -> fault_at 0 w = None ->
     exists w', sync_folder_recursive src_file dst_file w = (Ok tt, w')).
Proof.
  split; [apply process_file_total|].
  split; [|split; [|split; [|split; [apply evaluate_all_total|]]]].
  - intros w e w' H. apply raises_during_run in H.
    unfold guarded_copy, try_except. rewrite H. reflexivity.
  - intros w r w' H. unfold process_file, bind in H.
    rewrite get_file_fingerprint_run in H.
    assert (E0 : evolves w (after (EvStat Src src_file) w))
      by (apply evolves_reads with (evs := [EvStat Src src_file]); reflexivity).
    destruct (match hd None (faults w) with Some _ => _ | None => _ end) as [fp|].
    + unfold read in H. destruct (bool_decide _).
      * inversion H; subst. now left.
      * right. eexists. split; [|exact H].
        eapply evolves_trans; [exact E0|]. eapply add_seen_evolves. reflexivity.
    + right. eexists. split; [exact E0|exact H].
  - intros cs w. unfold evaluate_all. cbn [for_each fst snd]. unfold bind.
    destruct (process_file_total src_file dst_file w) as (o & w1 & ->). reflexivity.
  - intros n w Hn Hf.
    assert (Hf' : hd None (faults w) = None)
      by (unfold fault_at in Hf; destruct (faults w); [reflexivity|exact Hf]).
    rewrite (sync_folder_recursive_run _ _ n w Hn Hf').
    destruct (evaluate_all_total (mirror src_file dst_file n)
                (after (EvExists Src src_file) w)) as ([] & w' & ->). eauto.
Qed.

(** The copy of [docs/a.txt] fails during the walk of [docs]: the failure
    is reported and [docs/sub/b.txt] is processed next. *)
Lemma failures_caught_and_reported_witness :
  let w := example_world [None; None; None; None; Some "disk full"] in
  let s := ["docs"; "a.txt"] in
  let d := ["bk"; "docs"; "a.txt"] in
  let w0 := add_seen ("a.txt", 100, 1000)
              (after (EvStat Src s) (after (EvExists Src ["docs"]) w)) in
  let w1 := snd (path_exists Dst d w0) in
  let w2 := snd (mkdir_parents (path_parent d) w1) in
  let w3 := snd (copy2 s d (record (EvPrint (CopyLine (path_name s))) w2)) in
  raises_during s d w0 (OSError "disk full") w3 /\
  guarded_copy s d w0
  = (Ok Failed, record (EvPrint (ErrorLine s (OSError "disk full"))) w3) /\
  sync_folder_recursive ["docs"] ["bk"; "docs"] w
  = evaluate_all [(["docs"; "sub"; "b.txt"], ["bk"; "docs"; "sub"; "b.txt"])]
      (snd (process_file s d (after (EvExists Src ["docs"]) w))) /\
  exists w', sync_folder_recursive ["docs"] ["bk"; "docs"] w = (Ok tt, w').
Proof.
  intros w s d w0 w1 w2 w3.
  destruct (failures_caught_and_reported s d) as (_ & Hcaught & _ & Hnext & Htot & _).
  assert (Hraise : raises_during s d w0 (OSError "disk full") w3).
  { apply raises_copy with (w1 := w1) (w2 := w2).
    - left. reflexivity.
    - reflexivity.
    - reflexivity. }
  split; [exact Hraise|]. split; [exact (Hcaught _ _ _ Hraise)|]. split.
  - rewrite <- Hnext. reflexivity.
  - rewrite (sync_folder_recursive_run ["docs"] ["bk"; "docs"]
               (folder 0 [("a.txt", file 100 1000 0);
                          ("sub", folder 0 [("b.txt", file 5 3.5 2)])]) w)
      by reflexivity.
    destruct (Htot (mirror ["docs"] ["bk"; "docs"]
                (folder 0 [("a.txt", file 100 1000 0);
                           ("sub", folder 0 [("b.txt", file 5 3.5 2)])]))
                (after (EvExists Src ["docs"]) w)) as ([] & w' & E).
    exists w'. exact E.
Defined.

(** C6. When the existence check of the source root answers False, both
    walkers return at once and without an exception: the check is the only
    call made, nothing is printed, no candidate is evaluated, and the
    destination volume and the registry are as they were. *)
Theorem missing_root_is_noop
  (w : world) (src_root dst_root : path)
  (Hmissing : fst (path_exists Src src_root w) = Ok false) :
  let w' := after (EvExists Src src_root) w in
  sync_folder_recursive src_root dst_root w = (Ok tt, w') /\
  sync_documents_special src_root dst_root w = (Ok tt, w') /\
  dst_vol w' = dst_vol w /\
  SEEN_FILES_FINGERPRINTS w' = SEEN_FILES_FINGERPRINTS w /\
  trace w' = trace w ++ [EvExists Src src_root].
Proof.
  intros w'.
  assert (H : path_exists Src src_root w = (Ok false, w')).
  { rewrite path_exists_run in *. cbn [fst] in Hmissing. now rewrite Hmissing. }
  unfold sync_folder_recursive, sync_documents_special, bind. rewrite H.
  repeat split.
Qed.

Lemma missing_root_is_noop_witness :
  let w := example_world [] in
  fst (path_exists Src ["Users"; "nobody"; "Documents"] w) = Ok false /\
  sync_folder_recursive ["Users"; "nobody"; "Documents"] ["bk"] w
  = (Ok tt, after (EvExists Src ["Users"; "nobody"; "Documents"]) w) /\
  sync_documents_special ["Users"; "nobody"; "Documents"] ["bk"] w
  = (Ok tt, after (EvExists Src ["Users"; "nobody"; "Documents"]) w).
Proof.
  intros w.
  assert (H : fst (path_exists Src ["Users"; "nobody"; "Documents"] w) = Ok false)
    by reflexivity.
  destruct (missing_root_is_noop w ["Users"; "nobody"; "Documents"] ["bk"] H)
    as (H1 & H2 & _).
  split; [exact H|]. split; [exact H1|exact H2].
Defined.

Lemma mirror_NoDup src dst n : wf_node n -> List.NoDup (mirror src dst n).
Proof.
  intros Hwf. unfold mirror. apply Finite.Injective_map_NoDup.
  - intros r1 r2 [= H _]. unfold path_concat in H. now apply app_inv_head in H.
  - now apply files_under_NoDup.
Qed.

Lemma in_mirror src dst n s d :
  wf_node n ->
  In (s, d) (mirror src dst n) <->
  exists rel st,
    rel <> [] /\ find_node n rel = Some (File st) /\
    s = path_concat src rel /\ d = path_concat dst rel.
Proof.
  intros Hwf. unfold mirror. rewrite in_map_iff. split.
  - intros (rel & [= <- <-] & Hin).
    destruct (files_under_sound n rel Hwf Hin) as [st Hst].
    exists rel, st. repeat split; [|assumption].
    intros ->. now apply files_under_nonempty in Hin.
  - intros (rel & st & Hne & Hf & -> & ->). exists rel. split; [reflexivity|].
    eapply files_under_complete; eassumption.
Qed.

(** The loop over the candidates is a sequence of calls of the evaluator. *)
Lemma evaluate_all_run cs : forall w, evaluate_all cs w = (Ok tt, evaluated cs w).
Proof.
  induction cs as [|c cs IH]; intros w; [reflexivity|].
  unfold evaluate_all. cbn [for_each evaluated]. unfold bind.
  destruct (process_file_total (fst c) (snd c) w) as (o & w1 & ->).
  cbn [ret snd]. apply IH.
Qed.

Lemma evaluated_app cs1 cs2 w :
  evaluated (cs1 ++ cs2) w = evaluated cs2 (evaluated cs1 w).
Proof.
  revert w. induction cs1 as [|c cs1 IH]; intros w; cbn [evaluated app]; auto.
Qed.

(** Every call of the evaluator begins with the [stat] of the source file. *)
Lemma process_file_first_event s d w r w' :
  process_file s d w = (r, w') ->
  exists evs, trace w' = trace w ++ EvStat Src s :: evs.
Proof.
  unfold process_file, bind. rewrite get_file_fingerprint_run.
  assert (Hg : forall w1, trace w1 = trace w ++ [EvStat Src s] ->
             guarded_copy s d w1 = (r, w') ->
             exists evs, trace w' = trace w ++ EvStat Src s :: evs).
  { intros w1 Ht H. apply guarded_copy_run in H as (_ & [_ _ (evs & He & _)] & _).
    exists evs. rewrite He, Ht, <- app_assoc. reflexivity. }
  destruct (match hd None (faults w) with Some _ => _ | None => _ end) as [fp|].
  2:{ apply Hg. reflexivity. }
  unfold read. destruct (bool_decide _).
  - intros H; inversion H; subst. exists []. reflexivity.
  - unfold modify. apply Hg. reflexivity.
Qed.

Lemma evaluated_trace cs w : exists evs, trace (evaluated cs w) = trace w ++ evs.
Proof.
  pose proof (evaluate_all_run cs w) as H. apply evaluate_all_evolves in H.
  destruct H as [_ _ (evs & H & _)]. eauto.
Qed.

(** Each candidate of the list is evaluated by one call of [process_file],
    made in the world that the candidates before it have left; the events
    of that call are part of the events of the whole sequence. *)
Lemma evaluated_calls cs w before s d rest :
  cs = before ++ (s, d) :: rest ->
  exists o evs,
    process_file s d (evaluated before w)
    = (Ok o, evaluated (before ++ [(s, d)]) w) /\
    trace (evaluated cs w) = trace (evaluated before w) ++ EvStat Src s :: evs.
Proof.
  intros ->. destruct (process_file_total s d (evaluated before w)) as (o & w1 & E).
  destruct (process_file_first_event _ _ _ _ _ E) as (evs1 & H1).
  rewrite !evaluated_app. cbn [evaluated fst snd]. rewrite E. cbn [snd].
  destruct (evaluated_trace rest w1) as (evs2 & H2).
  exists o, (evs1 ++ evs2). split; [reflexivity|].
  rewrite H2, H1, <- app_assoc. reflexivity.
Qed.

(** C7. On an existing source root the recursive walker returns normally,
    in the world obtained by calling the evaluator on the candidates of a
    list without repetition, one call after the other: every candidate of
    the list is the argument of one call of [process_file], made in the
    world left by the calls before it, and the events of that call -
    beginning with the [stat] of the source file - are events of the walk.
    A pair [(s, d)] occurs in the list exactly when [s] is a regular file at
    some relative path below the source root and [d] is the same relative
    path below the destination root. *)
Theorem every_file_mirrored_once
  (w : world) (src_root dst_root : path) (n : node)
  (Hroot : find_node (src_vol w) src_root = Some n)
  (Hprobe : fault_at 0 w = None)
  (Hwf : wf_node n) :
  let w0 := after (EvExists Src src_root) w in
  let cs := mirror src_root dst_root n in
  sync_folder_recursive src_root dst_root w = (Ok tt, evaluated cs w0) /\
  List.NoDup cs /\
  (forall s d,
     In (s, d) cs <->
     exists rel st,
       rel <> [] /\ find_node n rel = Some (File st) /\
       s = path_concat src_root rel /\ d = path_concat dst_root rel) /\
  (forall before s d rest,
     cs = before ++ (s, d) :: rest ->
     exists o evs,
       process_file s d (evaluated before w0)
       = (Ok o, evaluated (before ++ [(s, d)]) w0) /\
       trace (evaluated cs w0)
       = trace (evaluated before w0) ++ EvStat Src s :: evs).
Proof.
  intros w0 cs. split; [|split; [|split]].
  - unfold cs, w0. rewrite (sync_folder_recursive_run _ _ n); [apply evaluate_all_run|assumption|].
    unfold fault_at in Hprobe. destruct (faults w); [reflexivity|exact Hprobe].
  - now apply mirror_NoDup.
  - intros s d. now apply in_mirror.
  - intros before s d rest Hcs. now apply evaluated_calls with (rest := rest).
Qed.

(** The walk of [docs]: both [a.txt] and [sub/b.txt] are evaluated (and
    copied), each under the same relative path. *)
Lemma every_file_mirrored_once_witness :
  let w := example_world [] in
  let n := folder 0 [("a.txt", file 100 1000 0);
                     ("sub", folder 0 [("b.txt", file 5 3.5 2)])] in
  let a := (["docs"; "a.txt"], ["bk"; "docs"; "a.txt"]) in
  let b := (["docs"; "sub"; "b.txt"], ["bk"; "docs"; "sub"; "b.txt"]) in
  let run := sync_folder_recursive ["docs"] ["bk"; "docs"] w in
  find_node (src_vol w) ["docs"] = Some n /\
  wf_node n /\
  run = (Ok tt, evaluated [a; b] (after (EvExists Src ["docs"]) w)) /\
  trace (snd run)
  = [EvExists Src ["docs"];
     EvStat Src (fst a); EvExists Dst (snd a); EvMkdir ["bk"; "docs"];
     EvPrint (CopyLine "a.txt"); EvCopy (fst a) (snd a);
     EvStat Src (fst b); EvExists Dst (snd b); EvMkdir ["bk"; "docs"; "sub"];
     EvPrint (CopyLine "b.txt"); EvCopy (fst b) (snd b)].
Proof.
  intros w n a b run.
  assert (Hwf : wf_node n).
  { cbn. repeat split; repeat constructor; cbn; intuition discriminate. }
  split; [reflexivity|]. split; [exact Hwf|]. split.
  - exact (proj1 (every_file_mirrored_once w ["docs"] ["bk"; "docs"] n
                    eq_refl eq_refl Hwf)).
  - vm_compute. reflexivity.
Defined.

Lemma fault_at_0 w : fault_at 0 w = hd None (faults w).
Proof. unfold fault_at. now destruct (faults w). Qed.

Lemma fault_at_after k ev w : fault_at k (after ev w) = fault_at (S k) w.
Proof. unfold fault_at. cbn. destruct (faults w); [now destruct k|reflexivity]. Qed.

Lemma fault_at_record k ev w : fault_at k (record ev w) = fault_at k w.
Proof. reflexivity. Qed.

(** The top-level loop is a sequence of runs of its body. *)
Lemma for_each_visited dst items : forall w,
  for_each items (visit_top_level dst) w = visited dst items w.
Proof.
  induction items as [|item items IH]; intros w; cbn [for_each visited];
    [reflexivity|].
  unfold bind. destruct (visit_top_level dst item w) as [[[]|e] w1];
    [apply IH|reflexivity].
Qed.

Lemma sync_documents_special_run src dst st es w :
  find_node (src_vol w) src = Some (Dir st es) ->
  fault_at 0 w = None ->
  fault_at 1 w = None ->
  sync_documents_special src dst w =
  visited dst (map (fun e => path_join src (fst e)) es)
          (after (EvIterdir src)
             (record (EvPrint (ScanLine src)) (after (EvExists Src src) w))).
Proof.
  intros Hn Hf0 Hf1. rewrite fault_at_0 in Hf0.
  unfold sync_documents_special, bind. rewrite path_exists_run, Hf0.
  cbn [vol]. rewrite Hn. cbn [negb print modify].
  rewrite iterdir_run, <- fault_at_0, fault_at_record, fault_at_after, Hf1.
  cbn [record after pop_fault src_vol]. rewrite Hn.
  apply for_each_visited.
Qed.

Lemma visit_hidden dst_root item n w :
  find_node (src_vol w) item = Some n ->
  fault_at 0 w = None ->
  Z.land (st_file_attributes (node_stat n)) FILE_ATTRIBUTE_HIDDEN <> 0 ->
  visit_top_level dst_root item w = (Ok tt, after (EvStat Src item) w).
Proof.
  intros Hn Hf Hh. rewrite fault_at_0 in Hf.
  unfold visit_top_level, bind. rewrite is_hidden_run, Hf, Hn.
  apply Z.eqb_neq in Hh. rewrite Hh. reflexivity.
Qed.

Lemma visit_visible dst_root item n w :
  find_node (src_vol w) item = Some n ->
  fault_at 0 w = None ->
  Z.land (st_file_attributes (node_stat n)) FILE_ATTRIBUTE_HIDDEN = 0 ->
  visit_top_level dst_root item w = dispatch_entry dst_root item (after (EvStat Src item) w).
Proof.
  intros Hn Hf Hh. rewrite fault_at_0 in Hf.
  unfold visit_top_level, bind. rewrite is_hidden_run, Hf, Hn.
  apply Z.eqb_eq in Hh. rewrite Hh. reflexivity.
Qed.

Lemma dispatch_directory dst_root item n w :
  find_node (src_vol w) item = Some n ->
  node_is_dir n = true ->
  fault_at 0 w = None ->
  fault_at 1 w = None ->
  dispatch_entry dst_root item w =
  (Ok tt, evaluated (mirror item (path_join dst_root (path_name item)) n)
                    (after (EvExists Src item) (after (EvIsDir item) w))).
Proof.
  intros Hn Hd Hf0 Hf1. rewrite fault_at_0 in Hf0.
  unfold dispatch_entry, bind. rewrite path_is_dir_run, Hf0, Hn, Hd.
  rewrite (sync_folder_recursive_run _ _ n); [apply evaluate_all_run|exact Hn|].
  now rewrite <- fault_at_0, fault_at_after.
Qed.

(** C3. The filtered walker runs the body of its loop on the immediate
    entries of its root, one after the other.  On an entry whose attributes,
    once read, carry the hidden flag the body returns after that one
    [stat]: no descent, no evaluation.  On a directory without the flag the
    body returns in the world obtained by calling the evaluator on the
    mirrored candidates of the directory: every regular file below it,
    whatever its attributes - they are never looked at -, is the argument of
    one call of [process_file], whose events are events of the walk. *)
Theorem hidden_filter_top_level_only
  (w : world) (src_root dst_root : path) (st : stat_result)
  (es : list (string * node))
  (Hroot : find_node (src_vol w) src_root = Some (Dir st es))
  (Hprobe : fault_at 0 w = None)
  (Hlist : fault_at 1 w = None) :
  sync_documents_special src_root dst_root w
  = visited dst_root (map (fun e => path_join src_root (fst e)) es)
      (after (EvIterdir src_root)
         (record (EvPrint (ScanLine src_root)) (after (EvExists Src src_root) w))) /\
  forall (w0 : world) (item : path) (n : node),
    find_node (src_vol w0) item = Some n ->
    fault_at 0 w0 = None ->
    let hidden :=
      Z.land (st_file_attributes (node_stat n)) FILE_ATTRIBUTE_HIDDEN <> 0 in
    let w1 := after (EvStat Src item) w0 in
    let dst := path_join dst_root (path_name item) in
    (hidden -> visit_top_level dst_root item w0 = (Ok tt, w1)) /\
    (~ hidden -> node_is_dir n = true ->
     fault_at 1 w0 = None -> fault_at 2 w0 = None ->
     let w3 := after (EvExists Src item) (after (EvIsDir item) w1) in
     let cs := mirror item dst n in
     visit_top_level dst_root item w0 = (Ok tt, evaluated cs w3) /\
     forall rel st',
       rel <> [] -> find_node n rel = Some (File st') ->
       let s := path_concat item rel in
       let d := path_concat dst rel in
       exists before rest o evs,
         cs = before ++ (s, d) :: rest /\
         process_file s d (evaluated before w3)
         = (Ok o, evaluated (before ++ [(s, d)]) w3) /\
         trace (evaluated cs w3)
         = trace (evaluated before w3) ++ EvStat Src s :: evs).
Proof.
  split; [now apply sync_documents_special_run with (st := st)|].
  intros w0 item n Hn Hf hidden w1 dst. split.
  - intros Hh. now apply visit_hidden with (n := n).
  - intros Hv Hd Hf1 Hf2 w3 cs.
    assert (Hz : Z.land (st_file_attributes (node_stat n)) FILE_ATTRIBUTE_HIDDEN = 0).
    { destruct (Z.eq_dec (Z.land (st_file_attributes (node_stat n))
                                 FILE_ATTRIBUTE_HIDDEN) 0) as [E|E];
        [exact E|contradiction]. }
    split.
    + rewrite (visit_visible _ _ n) by assumption.
      apply dispatch_directory; [exact Hn|exact Hd| |];
        subst w1; now rewrite fault_at_after.
    + intros rel st' Hne Hfile s d.
      assert (Hin : In (s, d) cs).
      { unfold cs, mirror. apply in_map_iff. exists rel. split; [reflexivity|].
        eapply files_under_complete; eassumption. }
      apply in_split in Hin as (before & rest & Hcs).
      destruct (evaluated_calls cs w3 before s d rest Hcs) as (o & evs & H1 & H2).
      exists before, rest, o, evs. auto.
Qed.

(** A whole run on the example tree: [.hid] is skipped with its content and
    nothing of it reaches the archive; below [docs], the hidden file
    [sub/b.txt] is evaluated like [a.txt], and archived. *)
Lemma hidden_filter_top_level_only_witness :
  let w := example_world [] in
  let docs := folder 0 [("a.txt", file 100 1000 0);
                        ("sub", folder 0 [("b.txt", file 5 3.5 2)])] in
  let run := sync_documents_special [] ["bk"] w in
  find_node (src_vol w) [".hid"] = Some (folder 2 [("x.txt", file 3 3 0)]) /\
  find_node (src_vol w) ["docs"] = Some docs /\
  run = visited ["bk"] [["docs"]; ["copy"]; [".hid"]; ["top.txt"]; ["empty"]]
          (after (EvIterdir [])
             (record (EvPrint (ScanLine [])) (after (EvExists Src []) w))) /\
  visit_top_level ["bk"] [".hid"] w = (Ok tt, after (EvStat Src [".hid"]) w) /\
  visit_top_level ["bk"] ["docs"] w
  = (Ok tt,
     evaluated [(["docs"; "a.txt"], ["bk"; "docs"; "a.txt"]);
                (["docs"; "sub"; "b.txt"], ["bk"; "docs"; "sub"; "b.txt"])]
       (after (EvExists Src ["docs"])
          (after (EvIsDir ["docs"]) (after (EvStat Src ["docs"]) w)))) /\
  fst run = Ok tt /\
  find_node (dst_vol (snd run)) ["bk"; ".hid"] = None /\
  find_node (dst_vol (snd run)) ["bk"; "docs"; "sub"; "b.txt"] = Some (file 5 3.5 2).
Proof.
  intros w docs run.
  destruct (hidden_filter_top_level_only w [] ["bk"] (mk_stat 0 0 0)
              [("docs", docs);
               ("copy", folder 0 [("a.txt", file 100 1000 0)]);
               (".hid", folder 2 [("x.txt", file 3 3 0)]);
               ("top.txt", file 9 9 0);
               ("empty", folder 0 [])] eq_refl eq_refl eq_refl) as (Hrun & H).
  split; [reflexivity|]. split; [reflexivity|]. split; [exact Hrun|]. split; [|split].
  - refine (proj1 (H w [".hid"] (folder 2 [("x.txt", file 3 3 0)]) eq_refl eq_refl) _).
    cbn. discriminate.
  - refine (proj1 (proj2 (H w ["docs"] docs eq_refl eq_refl) _ eq_refl eq_refl eq_refl)).
    cbn. intros E. now apply E.
  - vm_compute. repeat split.
Defined.



Lemma evaluate_all_skipped cs : forall w r w',
  evaluate_all cs w = (r, w') ->
  Forall skipped (outcomes cs w) ->
  dst_vol w' = dst_vol w.
Proof.
  induction cs as [|c cs IH]; intros w r w' H Hall.
  - inversion H; subst. reflexivity.
  - unfold evaluate_all in H. cbn [for_each] in H. unfold bind in H.
    cbn [outcomes] in Hall. inversion Hall as [|? ? Hc Hcs]; subst.
    destruct (process_file (fst c) (snd c) w) as [r0 w0] eqn:E. cbn [fst snd] in *.
    destruct (process_file_run _ _ _ _ _ E) as ([o ->] & _ & Hd).
    cbn [ret] in H. rewrite (IH _ _ _ H Hcs). now apply Hd.
Qed.

Lemma sync_folder_recursive_skipped src dst n w r w' :
  sync_folder_recursive src dst w = (r, w') ->
  find_node (src_vol w) src = Some n ->
  Forall skipped (outcomes (mirror src dst n) (after (EvExists Src src) w)) ->
  dst_vol w' = dst_vol w.
Proof.
  intros H Hn Hall.
  destruct (hd None (faults w)) as [msg|] eqn:F.
  - unfold sync_folder_recursive, bind in H. rewrite path_exists_run, F in H.
    inversion H; subst. reflexivity.
  - rewrite (sync_folder_recursive_run _ _ n w Hn F) in H.
    now rewrite (evaluate_all_skipped _ _ _ _ H Hall).
Qed.

(** C10. Whatever a walker does to the destination volume, it does through
    the copy of a file: in the events of its run every [mkdir] creates the
    parent chain of the destination of a file and is followed by the copy
    of that file (or by the error notice, when the [mkdir] itself raised),
    and a run without [mkdir] leaves the destination volume as it was.  In
    particular, when every file below the source root is skipped as a
    duplicate or as unchanged, and when there is no file below it at all,
    the recursive walker leaves the destination volume as it was. *)
Theorem destination_directories_only_for_copies
  (w w' : world) (src_root dst_root : path) (r : result unit)
  (Hrun : sync_folder_recursive src_root dst_root w = (r, w') \/
          sync_documents_special src_root dst_root w = (r, w')) :
  (exists evs,
     trace w' = trace w ++ evs /\ copy_shaped evs /\
     (mkdir_free evs -> dst_vol w' = dst_vol w)) /\
  (forall n,
     sync_folder_recursive src_root dst_root w = (r, w') ->
     find_node (src_vol w) src_root = Some n ->
     (Forall skipped (outcomes (mirror src_root dst_root n)
                               (after (EvExists Src src_root) w)) ->
      dst_vol w' = dst_vol w) /\
     (files_under n = [] -> dst_vol w' = dst_vol w)).
Proof.
  split.
  - destruct Hrun as [H|H].
    + apply sync_folder_recursive_evolves in H. now destruct H.
    + apply sync_documents_special_evolves in H. now destruct H.
  - intros n H Hn. split.
    + exact (sync_folder_recursive_skipped _ _ n _ _ _ H Hn).
    + intros Hempty. apply (sync_folder_recursive_skipped _ _ n _ _ _ H Hn).
      unfold mirror. rewrite Hempty. constructor.
Qed.

(** [docs/a.txt] is unchanged in the archive and [copy/a.txt] is its
    duplicate: neither walk creates anything, not even [bk/copy]; nor does
    the walk of the empty directory. *)
Lemma destination_directories_only_for_copies_witness :
  let w := example_world [] in
  let run1 := evaluate_all [(["docs"; "a.txt"], ["bk"; "a.txt"])] w in
  let run2 := sync_folder_recursive ["copy"] ["bk"; "copy"] (snd run1) in
  let run3 := sync_folder_recursive ["empty"] ["bk"; "empty"] (snd run2) in
  outcomes (mirror ["copy"] ["bk"; "copy"] (folder 0 [("a.txt", file 100 1000 0)]))
           (after (EvExists Src ["copy"]) (snd run1))
  = [Ok SkippedDuplicate] /\
  dst_vol (snd run2) = dst_vol (snd run1) /\
  dst_vol (snd run3) = dst_vol (snd run2) /\
  find_node (dst_vol (snd run3)) ["bk"; "copy"] = None /\
  find_node (dst_vol (snd run3)) ["bk"; "empty"] = None.
Proof.
  intros w run1 run2 run3.
  assert (Hout : outcomes (mirror ["copy"] ["bk"; "copy"]
                             (folder 0 [("a.txt", file 100 1000 0)]))
                          (after (EvExists Src ["copy"]) (snd run1))
                 = [Ok SkippedDuplicate]) by (vm_compute; reflexivity).
  assert (H2 : dst_vol (snd run2) = dst_vol (snd run1)).
  { refine (proj1 (proj2 (destination_directories_only_for_copies
                            (snd run1) (snd run2) ["copy"] ["bk"; "copy"] (fst run2)
                            (or_introl (surjective_pairing _)))
                     (folder 0 [("a.txt", file 100 1000 0)])
                     (surjective_pairing _) eq_refl) _).
    rewrite Hout. repeat constructor. }
  assert (H3 : dst_vol (snd run3) = dst_vol (snd run2)).
  { exact (proj2 (proj2 (destination_directories_only_for_copies
                           (snd run2) (snd run3) ["empty"] ["bk"; "empty"] (fst run3)
                           (or_introl (surjective_pairing _)))
                    (folder 0 []) (surjective_pairing _) eq_refl) eq_refl). }
  split; [exact Hout|]. split; [exact H2|]. split; [exact H3|].
  rewrite H3, H2. split; reflexivity.
Defined.

(** ** Runs on the example tree *)

(** A new file is copied with its size and modification time; the parent
    chain of its destination is created. *)
Example copy_of_a_new_file :
  let run := process_file ["top.txt"] ["bk"; "new"; "top.txt"] (example_world []) in
  fst run = Ok Copied /\
  find_node (dst_vol (snd run)) ["bk"; "new"; "top.txt"] = Some (file 9 9 0) /\
  trace (snd run)
  = [EvStat Src ["top.txt"]; EvExists Dst ["bk"; "new"; "top.txt"];
     EvMkdir ["bk"; "new"]; EvPrint (CopyLine "top.txt");
     EvCopy ["top.txt"] ["bk"; "new"; "top.txt"]].
Proof. vm_compute. repeat split. Qed.

(** In a later run (empty registry) on the archive so obtained the file is
    unchanged. *)
Example second_run_skips_the_file :
  let run1 := process_file ["top.txt"] ["bk"; "new"; "top.txt"] (example_world []) in
  let run2 := process_file ["top.txt"] ["bk"; "new"; "top.txt"]
                (mk_world example_src (dst_vol (snd run1)) ∅ [] []) in
  fst run2 = Ok SkippedUnchanged /\ dst_vol (snd run2) = dst_vol (snd run1).
Proof. vm_compute. repeat split. Qed.

(** A source newer than the archived file by more than 5 seconds, or of
    another size, is copied again; within 5 seconds it is not. *)
Example five_second_window :
  let archive mtime size := folder 0 [("bk", folder 0 [("a.txt", file size mtime 0)])] in
  let outcome dst :=
    fst (process_file ["docs"; "a.txt"] ["bk"; "a.txt"]
           (mk_world example_src dst ∅ [] [])) in
  outcome (archive 995%float 100) = Ok SkippedUnchanged /\
  outcome (archive 994.5%float 100) = Ok Copied /\
  outcome (archive 2000%float 100) = Ok SkippedUnchanged /\
  outcome (archive 2000%float 120) = Ok Copied.
Proof. vm_compute. repeat split. Qed.

(** The window is the one of line 100, in floating-point arithmetic: with
    the source at 5.2 and the archive at 0.2 (the nearest floats, written
    exactly) the sum of 0.2 and 5 is rounded to the float 5.2, and the file
    is unchanged; one unit in the last place later, the source is copied. *)
Example window_is_rounded :
  let outcome src_mtime dst_mtime :=
    fst (process_file ["a.txt"] ["a.txt"]
           (mk_world (folder 0 [("a.txt", file 7 src_mtime 0)])
                     (folder 0 [("a.txt", file 7 dst_mtime 0)]) ∅ [] [])) in
  (0x1.999999999999ap-3 + 5 =? 0x1.4cccccccccccdp+2)%float = true /\
  outcome 0x1.4cccccccccccdp+2%float 0x1.999999999999ap-3%float = Ok SkippedUnchanged /\
  outcome 0x1.4cccccccccccep+2%float 0x1.999999999999ap-3%float = Ok Copied.
Proof. vm_compute. repeat split. Qed.

(** The fingerprint truncates the modification time toward zero. *)
Example fingerprint_truncates :
  fingerprint_of ["docs"; "sub"; "b.txt"] (mk_stat 5 3.5 2) = Some ("b.txt", 5, 3) /\
  int_of (-3.5) = Ok (-3) /\
  int_of 0x1.999999999999ap-3 = Ok 0 /\
  int_of 1e15 = Ok 1000000000000000.
Proof. repeat split. Qed.

(** A modification time that is not a finite number has no fingerprint:
    [int] raises, and [get_file_fingerprint] answers [None]. *)
Example fingerprint_of_a_non_finite_time :
  int_of infinity = Raise OverflowError /\
  int_of nan = Raise NotANumberError /\
  fingerprint_of ["a.txt"] (mk_stat 5 nan 0) = None.
Proof. repeat split. Qed.

(** A whole run of the two configured kinds of task: the hidden top-level
    directory is left out, the duplicate [copy/a.txt] is skipped, and no
    directory is created for [copy] or [empty]. *)
Example run_of_two_tasks :
  let run := run_tasks [(["docs"], "OneDrive_Docs", false); ([], "Local_Documents", true)]
                       ["Arch"] (example_world []) in
  fst run = Ok tt /\
  dst_vol (snd run)
  = folder 0
      [("bk", folder 0 [("a.txt", file 100 998 0)]);
       ("Arch",
        folder 0
          [("OneDrive_Docs",
            folder 0 [("a.txt", file 100 1000 0);
                      ("sub", folder 0 [("b.txt", file 5 3.5 2)])]);
           ("Local_Documents", folder 0 [("top.txt", file 9 9 0)])])].
Proof. vm_compute. repeat split. Qed.
